(** * antd-theme-generator: a shallow embedding of [lib/antd-theme-generator.js]

  The development follows the source file top to bottom:
  - [JsString]: the [String.prototype] operations the generator calls;
  - [Regex]: a backtracking matcher for the fragment of ECMAScript
    regular expressions that occurs in the source (greedy quantifiers,
    capture groups, positive lookahead, [^] and [$]);
  - [Generator]: [randomColor], [getColor], [generateColorMap],
    [getLessVars], [getShade], [isValidColor], the [reducePlugin]
    transform on a PostCSS tree and the [generateTheme] orchestrator with
    its process-wide cache.

  Strings are sequences of 8-bit code units ([string]); JavaScript objects
  used as dictionaries are [gmap string _] (own string-keyed properties). *)

From Stdlib Require Import ZArith NArith Ascii String DecimalString.
From stdpp Require Import gmap strings list fin_maps relations.

Local Open Scope string_scope.

(** ** JavaScript string primitives *)

Module JsString.

(** The double-quote character, [U+0022]. *)
Definition dquote : ascii := ascii_of_nat 34.
(** Line feed, the ["\n"] of the source. *)
Definition lf : ascii := ascii_of_nat 10.
Definition LF : string := String lf EmptyString.

Definition code (a : ascii) : nat := nat_of_ascii a.
Definition between (lo hi : nat) (a : ascii) : bool :=
  (lo <=? code a)%nat && (code a <=? hi)%nat.
Definition is_char (c : ascii) (a : ascii) : bool := Ascii.eqb a c.

Definition is_digit : ascii → bool := between 48 57.
Definition is_upper : ascii → bool := between 65 90.
Definition is_lower : ascii → bool := between 97 122.
Definition is_alnum (a : ascii) : bool := is_digit a || is_upper a || is_lower a.
Definition is_hex (a : ascii) : bool :=
  is_digit a || between 65 70 a || between 97 102 a.
(** [WhiteSpace] and [LineTerminator] code units below 256:
    TAB, LF, VT, FF, CR, SP and NBSP. *)
Definition is_space (a : ascii) : bool :=
  between 9 13 a || is_char " " a || (code a =? 160)%nat.
(** [LineTerminator] code units below 256. *)
Definition is_newline (a : ascii) : bool :=
  (code a =? 10)%nat || (code a =? 13)%nat.

Definition to_lower (a : ascii) : ascii :=
  if is_upper a then ascii_of_nat (code a + 32) else a.

(** [s.startsWith(p)] *)
Fixpoint startsWith (p s : string) : bool :=
  match p, s with
  | EmptyString, _ => true
  | String a p', String b s' => is_char a b && startsWith p' s'
  | String _ _, EmptyString => false
  end.

(** [s.includes(w)] *)
Fixpoint includes (w s : string) : bool :=
  startsWith w s ||
  match s with
  | EmptyString => false
  | String _ s' => includes w s'
  end.

(** [s.indexOf(w)]; [None] is the source's [-1]. *)
Fixpoint indexOf (w s : string) : option nat :=
  if startsWith w s then Some 0%nat
  else match s with
       | EmptyString => None
       | String _ s' => S <$> indexOf w s'
       end.

Fixpoint take (n : nat) (s : string) : string :=
  match n, s with
  | S n', String a s' => String a (take n' s')
  | _, _ => EmptyString
  end.

Fixpoint drop (n : nat) (s : string) : string :=
  match n, s with
  | S n', String _ s' => drop n' s'
  | _, _ => s
  end.

(** [s.charAt(0)]: the empty string when [s] is empty. *)
Definition charAt0 (s : string) : string := take 1 s.
(** [s.substring(n)] *)
Definition substring_from (n : nat) (s : string) : string := drop n s.

(** [s.split(sep)] for a one-character separator. *)
Fixpoint split_char (sep : ascii) (s : string) : list string :=
  match s with
  | EmptyString => [EmptyString]
  | String a s' =>
      if Ascii.eqb a sep then EmptyString :: split_char sep s'
      else match split_char sep s' with
           | [] => [String a EmptyString]
           | p :: ps => String a p :: ps
           end
  end.

(** [parts.join(sep)] *)
Fixpoint join (sep : string) (parts : list string) : string :=
  match parts with
  | [] => EmptyString
  | [p] => p
  | p :: ps => p +:+ sep +:+ join sep ps
  end.

Fixpoint trim_start (s : string) : string :=
  match s with
  | String a s' => if is_space a then trim_start s' else s
  | EmptyString => EmptyString
  end.

Fixpoint trim_end (s : string) : string :=
  match s with
  | EmptyString => EmptyString
  | String a s' =>
      match trim_end s' with
      | EmptyString => if is_space a then EmptyString else String a EmptyString
      | t => String a t
      end
  end.

(** [s.trim()] *)
Definition trim (s : string) : string := trim_end (trim_start s).

(** [s.replace(w, by)] with a string pattern: the first occurrence only. *)
Fixpoint replace_first (w by_ s : string) : string :=
  if startsWith w s then by_ +:+ drop (String.length w) s
  else match s with
       | EmptyString => EmptyString
       | String a s' => String a (replace_first w by_ s')
       end.

(** Truthiness of a string value. *)
Definition truthy (s : string) : bool :=
  match s with EmptyString => false | _ => true end.

End JsString.

(** ** Regular expressions *)

Module Regex.
Import JsString.

Inductive regex : Type :=
| Empty
| Char (p : ascii → bool)          (* a literal, a class or the dot *)
| Seq (r1 r2 : regex)
| Alt (r1 r2 : regex)
| Rep (lo : nat) (hi : option nat) (r : regex)   (* greedy r{lo,hi} *)
| Group (i : nat) (r : regex)      (* the i-th capturing parentheses *)
| Ahead (r : regex)                (* (?=r) *)
| Bol                              (* ^ without the m flag *)
| Eol.                             (* $ without the m flag *)

(** Captures: the most recent binding of a group comes first; a group
    without a binding is [undefined]. *)
Definition caps : Type := list (nat * string).

Fixpoint capture (i : nat) (c : caps) : option string :=
  match c with
  | [] => None
  | (j, s) :: c' => if (i =? j)%nat then Some s else capture i c'
  end.

Fixpoint groups (r : regex) : list nat :=
  match r with
  | Seq r1 r2 | Alt r1 r2 => groups r1 ++ groups r2
  | Rep _ _ r1 | Ahead r1 => groups r1
  | Group i r1 => i :: groups r1
  | _ => []
  end.

Definition clear (gs : list nat) (c : caps) : caps :=
  filter (λ b, b.1 ∉ gs) c.

Definition cont : Type := string → caps → option (string * caps).

(** The ECMAScript [RepeatMatcher] for a greedy quantifier [{lo,hi}] over
    the matcher [step] of its atom, with continuation [k]. An iteration
    beyond [lo] that consumes nothing is rejected, so [lo + length s]
    iterations are never exceeded and [fuel] above that is never used up
    (see [rep_loop_fuel] below). *)
Fixpoint rep_loop (step : string → caps → cont → option (string * caps))
  (k : cont) (fuel lo : nat) (hi : option nat) (s : string) (c : caps)
  {struct fuel} : option (string * caps) :=
  match fuel with
  | O => None
  | S fuel' =>
      match hi with
      | Some O => k s c
      | _ =>
          let again s' c' :=
            if (lo =? 0)%nat && (String.length s' =? String.length s)%nat
            then None
            else rep_loop step k fuel' (pred lo) (pred <$> hi) s' c' in
          match step s c again with
          | Some x => Some x
          | None => if (lo =? 0)%nat then k s c else None
          end
      end
  end.

(** [rmatch r total s c k]: match [r] at the head of the remaining input
    [s] ([total] is the length of the whole subject, for [^]) and pass the
    rest to the continuation [k]; alternatives are tried in the order of the
    ECMAScript matcher, so the first result is the one the engine finds.
    The captures of a quantified atom are reset at each iteration. *)
Fixpoint rmatch (r : regex) (total : nat) (s : string) (c : caps) (k : cont)
  {struct r} : option (string * caps) :=
  match r with
  | Empty => k s c
  | Char p =>
      match s with
      | String a s' => if p a then k s' c else None
      | EmptyString => None
      end
  | Seq r1 r2 => rmatch r1 total s c (λ s' c', rmatch r2 total s' c' k)
  | Alt r1 r2 =>
      match rmatch r1 total s c k with
      | Some x => Some x
      | None => rmatch r2 total s c k
      end
  | Rep lo hi r1 =>
      rep_loop (λ s' c' k', rmatch r1 total s' (clear (groups r1) c') k')
               k (S (lo + String.length s)) lo hi s c
  | Group i r1 =>
      rmatch r1 total s c
        (λ s' c', k s' ((i, take (String.length s - String.length s') s) :: c'))
  | Ahead r1 =>
      match rmatch r1 total s c (λ s' c', Some (s', c')) with
      | Some (_, c') => k s c'
      | None => None
      end
  | Bol => if (String.length s =? total)%nat then k s c else None
  | Eol => match s with EmptyString => k s c | _ => None end
  end.

(** One attempt at the current position: the matched text and captures. *)
Definition match_here (r : regex) (total : nat) (s : string)
  : option (string * caps) :=
  match rmatch r total s [] (λ s' c', Some (s', c')) with
  | Some (s', c') => Some (take (String.length s - String.length s') s, c')
  | None => None
  end.

Fixpoint search (r : regex) (total : nat) (s : string)
  : option (string * caps) :=
  match match_here r total s with
  | Some m => Some m
  | None => match s with
            | EmptyString => None
            | String _ s' => search r total s'
            end
  end.

(** [r.exec(s)] / [s.match(r)] without the g flag: the leftmost match. *)
Definition exec (r : regex) (s : string) : option (string * caps) :=
  search r (String.length s) s.

(** [r.test(s)] without the g flag; also the truthiness of [s.match(r)]. *)
Definition test (r : regex) (s : string) : bool :=
  match exec r s with Some _ => true | None => false end.

(** [s.match(r)] with the g flag: every match, left to right; an empty
    match advances by one code unit. [skip] counts the code units of the
    previous match that are still to be passed over. *)
Fixpoint match_all_from (r : regex) (total : nat) (s : string) (skip : nat)
  : list string :=
  match skip with
  | S skip' =>
      match s with
      | String _ s' => match_all_from r total s' skip'
      | EmptyString => []
      end
  | O =>
      match match_here r total s, s with
      | Some (m, _), String _ s' =>
          m :: match_all_from r total s' (pred (String.length m))
      | Some (m, _), EmptyString => [m]
      | None, String _ s' => match_all_from r total s' 0
      | None, EmptyString => []
      end
  end.

Definition match_all (r : regex) (s : string) : list string :=
  match_all_from r (String.length s) s 0.

(** [s.replace(r, by)] with the g flag and a replacement without [$]. *)
Fixpoint replace_all_from (r : regex) (by_ : string) (total : nat)
  (s : string) (skip : nat) : string :=
  match skip with
  | S skip' =>
      match s with
      | String _ s' => replace_all_from r by_ total s' skip'
      | EmptyString => EmptyString
      end
  | O =>
      match match_here r total s, s with
      | Some (EmptyString, _), String a s' =>
          by_ +:+ String a (replace_all_from r by_ total s' 0)
      | Some (m, _), String _ s' =>
          by_ +:+ replace_all_from r by_ total s' (pred (String.length m))
      | Some _, EmptyString => by_
      | None, String a s' => String a (replace_all_from r by_ total s' 0)
      | None, EmptyString => EmptyString
      end
  end.

Definition replace_all (r : regex) (by_ s : string) : string :=
  replace_all_from r by_ (String.length s) s 0.

(** [s.split(r)] for a separator without capture groups. [piece] holds,
    reversed, the code units since the end of the previous separator. *)
Definition rev_string (l : list ascii) : string :=
  fold_left (λ acc a, String a acc) l EmptyString.

Fixpoint split_from (r : regex) (total : nat) (s : string)
  (piece : list ascii) (skip : nat) : list string :=
  match s with
  | EmptyString => [rev_string piece]
  | String a s' =>
      match skip with
      | S skip' => split_from r total s' piece skip'
      | O =>
          match match_here r total s with
          | None => split_from r total s' (a :: piece) 0
          | Some (EmptyString, _) =>
              match piece with
              | [] => split_from r total s' [a] 0
              | _ => rev_string piece :: split_from r total s' [a] 0
              end
          | Some (m, _) =>
              rev_string piece
                :: split_from r total s' [] (pred (String.length m))
          end
      end
  end.

Definition split (r : regex) (s : string) : list string :=
  match s with
  | EmptyString =>
      match match_here r 0 EmptyString with Some _ => [] | None => [s] end
  | _ => split_from r (String.length s) s [] 0
  end.

(** *** Notation for writing the source's patterns *)

Definition chr (c : ascii) : regex := Char (is_char c).
(** A literal character under the i flag. *)
Definition chr_i (c : ascii) : regex :=
  Char (λ a, Ascii.eqb (to_lower a) (to_lower c)).
(** [.] *)
Definition dot : regex := Char (λ a, negb (is_newline a)).
Definition star (r : regex) : regex := Rep 0 None r.
Definition plus (r : regex) : regex := Rep 1 None r.
Definition opt (r : regex) : regex := Rep 0 (Some 1%nat) r.

Fixpoint lit (w : string) : regex :=
  match w with
  | EmptyString => Empty
  | String a EmptyString => chr a
  | String a w' => Seq (chr a) (lit w')
  end.

Fixpoint lit_i (w : string) : regex :=
  match w with
  | EmptyString => Empty
  | String a EmptyString => chr_i a
  | String a w' => Seq (chr_i a) (lit_i w')
  end.

Fixpoint seq (rs : list regex) : regex :=
  match rs with
  | [] => Empty
  | [r] => r
  | r :: rs' => Seq r (seq rs')
  end.

Fixpoint alt (rs : list regex) : regex :=
  match rs with
  | [] => Empty
  | [r] => r
  | r :: rs' => Alt r (alt rs')
  end.

End Regex.

(** ** The theme generator *)

Module Generator.
Import JsString Regex.

(** The source's patterns are quoted in the comments with a blank between a
    star and a closing parenthesis; the blank is not part of the pattern. *)

(** *** Exceptions and rejected promises *)

Definition error : Type := string.

Inductive result (A : Type) : Type :=
| Ok (a : A)
| Throw (e : error).
Arguments Ok {A} a.
Arguments Throw {A} e.

(** *** [randomColor] *)

Definition hex_digit (n : N) : ascii :=
  match n with
  | 0%N => "0" | 1%N => "1" | 2%N => "2" | 3%N => "3" | 4%N => "4"
  | 5%N => "5" | 6%N => "6" | 7%N => "7" | 8%N => "8" | 9%N => "9"
  | 10%N => "a" | 11%N => "b" | 12%N => "c" | 13%N => "d" | 14%N => "e"
  | _ => "f"
  end%char.

(** [n.toString(16)] padded to [k] digits, for [n < 16^k]. *)
Fixpoint hex_fixed (k : nat) (n : N) (acc : string) : string :=
  match k with
  | O => acc
  | S k' => hex_fixed k' (n / 16)%N (String (hex_digit (n mod 16)%N) acc)
  end.

(** [randomColor()]: ["#" + (0x1000000 + Math.random() * 0xffffff)
    .toString(16).substr(1, 6)]. The argument [draw] is the integer part of
    [Math.random() * 0xffffff], so [draw < 0xffffff]; the leading [1] of
    [0x1000000 + draw] is the character [substr] skips. *)
Definition randomColor (draw : N) : string :=
  String "#" (substring_from 1 (take 7 (hex_fixed 7 (0x1000000 + draw)%N EmptyString))).

(** *** [getColor] *)

(** [ToPropertyKey]: [undefined] used as a key is the string ["undefined"]. *)
Definition propertyKey (v : option string) : string :=
  match v with Some s => s | None => "undefined" end.

(** [getColor(varName, mappings)]. The result [Some None] is [undefined];
    running out of [fuel] stands for unbounded recursion. *)
Fixpoint getColor (fuel : nat) (varName : string) (mappings : gmap string string)
  : option (option string) :=
  match fuel with
  | O => None
  | S fuel' =>
      let color := mappings !! varName in
      if decide (propertyKey color ∈ dom mappings)
      then getColor fuel' (propertyKey color) mappings
      else Some color
  end.

(** *** [isValidColor] *)

Definition hex_value (a : ascii) : N :=
  if is_digit a then N.of_nat (code a - 48)
  else if between 65 70 a then N.of_nat (code a - 55)
  else N.of_nat (code a - 87).

Fixpoint hex_prefix (s : string) : string :=
  match s with
  | String a s' => if is_hex a then String a (hex_prefix s') else EmptyString
  | EmptyString => EmptyString
  end.

Definition hex_number (s : string) : N :=
  fold_left (λ acc a, (16 * acc + hex_value a)%N) (list_ascii_of_string s) 0%N.

(** [parseInt(s, 16)]: leading white space, a sign and a [0x] prefix are
    skipped, then the longest run of hexadecimal digits is read; [None] is
    [NaN]. *)
Definition parseInt16 (s : string) : option Z :=
  let s := trim_start s in
  let '(negative, s) :=
    match s with
    | String "-" s' => (true, s')
    | String "+" s' => (false, s')
    | _ => (false, s)
    end in
  let s := if startsWith "0x" s || startsWith "0X" s then drop 2 s else s in
  match hex_prefix s with
  | EmptyString => None
  | z => let n := Z.of_N (hex_number z) in
         Some (if negative then (- n)%Z else n)
  end.

Definition isNaN (n : option Z) : bool :=
  match n with None => true | Some _ => false end.

(** [/px/g] *)
Definition re_px : regex := lit "px".
(** [/colorPalette|fade/g] *)
Definition re_palette_fade : regex := Alt (lit "colorPalette") (lit "fade").
(** [/^(rgb|hsl|hsv)a?\((\d+%?(deg|rad|grad|turn)?[,\s]+){2,3}[\s\/]*[\d\.]+%?\)$/i] *)
Definition re_functional : regex :=
  seq [ Bol;
        Group 1 (alt [lit_i "rgb"; lit_i "hsl"; lit_i "hsv"]);
        opt (chr_i "a");
        chr "(";
        Rep 2 (Some 3%nat)
          (Group 2 (seq [ plus (Char is_digit);
                          opt (chr "%");
                          opt (Group 3 (alt [lit_i "deg"; lit_i "rad";
                                             lit_i "grad"; lit_i "turn"]));
                          plus (Char (λ a, is_char "," a || is_space a)) ]));
        star (Char (λ a, is_space a || is_char "/" a));
        plus (Char (λ a, is_digit a || is_char "." a));
        opt (chr "%");
        chr ")";
        Eol ].

(** [s.match(r)] with the g flag is [null] when nothing matches. *)
Definition matches_g (r : regex) (s : string) : bool :=
  match match_all r s with [] => false | _ => true end.

(** [isValidColor(color, customColorRegexArray)]; [None] is [undefined]. *)
Definition isValidColor (color : option string) (customColorRegexArray : list regex)
  : bool :=
  match color with
  | None => false
  | Some color =>
      if truthy color && includes "rgb" color then true
      else if negb (truthy color) || matches_g re_px color then false
      else if matches_g re_palette_fade color then true
      else if String.eqb (charAt0 color) "#" then
        let color := substring_from 1 color in
        bool_decide (String.length color ∈ [3; 4; 6; 8]%nat)
        && negb (isNaN (parseInt16 color))
      else if test re_functional color then true
      else if (0 <? length customColorRegexArray)%nat then
        fold_left (λ prev regex, prev || test regex color)
          customColorRegexArray false
      else false
  end.

(** *** [generateColorMap] *)

(** [/(?=\S*['-])([@a-zA-Z0-9'-]+).*:[ ]{1,}(.* );/] *)
Definition re_color_line : regex :=
  seq [ Ahead (Seq (star (Char (λ a, negb (is_space a))))
                   (Char (λ a, is_char "'" a || is_char "-" a)));
        Group 1 (plus (Char (λ a, is_char "@" a || is_alnum a
                                  || is_char "'" a || is_char "-" a)));
        star dot;
        chr ":";
        Rep 1 None (chr " ");
        Group 2 (star dot);
        chr ";" ].

(** The body of the [reduce] callback. The [try] around it catches the
    stack overflow of a [getColor] that does not return, and yields [prev]. *)
Definition colorMapStep (customColorRegexArray : list regex)
  (prev : gmap string string) (next : string) : gmap string string :=
  match exec re_color_line next with
  | None => prev
  | Some (_, c) =>
      match capture 1 c, capture 2 c with
      | Some varName, Some color =>
          if truthy color && startsWith "@" color then
            match getColor (S (size prev)) color prev with
            | None => prev
            | Some color =>
                if negb (isValidColor color customColorRegexArray) then prev
                else match color with
                     | Some color => <[varName := color]> prev
                     | None => prev
                     end
            end
          else if isValidColor (Some color) customColorRegexArray
               then <[varName := color]> prev
               else prev
      | _, _ => prev
      end
  end.

Definition generateColorMap (content : string) (customColorRegexArray : list regex)
  : gmap string string :=
  fold_left (colorMapStep customColorRegexArray)
    (filter (λ line, startsWith "@" line && bool_decide (is_Some (indexOf ":" line)))
            (split_char lf content))
    ∅.

(** *** [getLessVars] *)

(** [/@(.*:[^;]* )/g] *)
Definition re_less_var : regex :=
  Seq (chr "@")
      (Group 1 (seq [star dot; chr ":"; star (Char (λ a, negb (is_char ";" a)))])).
(** [/:\s*/] *)
Definition re_colon : regex := Seq (chr ":") (star (Char is_space)).
(** [/['Q]+/g], where [Q] stands for the double-quote character. *)
Definition re_quotes : regex :=
  plus (Char (λ a, is_char "'" a || is_char dquote a)).

(** The body of [getLessVars] after the file has been read. *)
Definition lessVarsOfSheet (sheet : string) : gmap string string :=
  fold_left
    (λ lessVars variable,
       let definition := split re_colon variable in
       let varName := trim (replace_all re_quotes EmptyString (hd EmptyString definition)) in
       <[varName := join ":" (tl definition)]> lessVars)
    (match_all re_less_var sheet)
    ∅.

(** [getLessVars(filtPath)]; a failing [readFile] rejects the promise. *)
Definition getLessVars (readFile : string → result string) (filtPath : string)
  : result (gmap string string) :=
  match readFile filtPath with
  | Ok sheet => Ok (lessVarsOfSheet sheet)
  | Throw e => Throw e
  end.

(** *** [getShade] *)

(** [/(.* )-(\d)/] *)
Definition re_shade : regex :=
  seq [Group 1 (star dot); chr "-"; Group 2 (Char is_digit)].
(** [/primary-\d/] *)
Definition re_primary_shade : regex := Seq (lit "primary-") (Char is_digit).

(** [getShade(varName)]; destructuring a [null] match throws ([None]). *)
Definition getShade (varName : string) : option string :=
  match exec re_shade varName with
  | None => None
  | Some (_, c) =>
      match capture 1 c, capture 2 c with
      | Some className, Some number =>
          let className :=
            if test re_primary_shade varName then "@primary-color" else className in
          Some ("color(~`colorPalette(" +:+ String dquote "@{"
                +:+ replace_first "@" EmptyString className
                +:+ "}" +:+ String dquote ", "
                +:+ number
                +:+ ")`)")
      | _, _ => None
      end
  end.

(** *** [reducePlugin]: the PostCSS transform

    The transform runs on compiled CSS (the output of [less.render]): a rule
    holds declarations and comments, and rules nest under at-rules only. *)

Inductive item : Type :=
| Decl (prop value : string)
| RuleComment (text : string).

#[warnings="-register-all"]
Inductive node : Type :=
| Rule (selector : string) (nodes : list item)
| AtRule (name params : string) (nodes : list node)
| Comment (text : string).

(** A JavaScript value as [Number.isNaN] sees it: it answers [true] for the
    number [NaN] only and does not convert its argument. *)
Inductive jsval : Type :=
| VString (s : string)
| VNumber (n : option Z).

Definition Number_isNaN (v : jsval) : bool :=
  match v with
  | VNumber None => true
  | _ => false
  end.

(** [/url\(.*\)/g] *)
Definition re_url : regex := seq [lit "url("; star dot; chr ")"].

(** The callback of [rule.walkDecls] on the declaration [prop: value]:
    whether the declaration has been removed when the callback returns, and
    the new value of the flag [removeRule]. *)
Definition visitDecl (prop value : string) (removeRule : bool) : bool * bool :=
  let removed := matches_g re_url value in
  let matched := false in
  if negb (includes "color" prop)
     && negb (includes "background" prop)
     && negb (includes "border" prop)
     && negb (includes "box-shadow" prop)
     && negb (Number_isNaN (VString value))
  then (true, removeRule)
  else (removed, if matched then removeRule else false).

(** [rule.walkDecls(...)]: the children that stay, and [removeRule]. *)
Fixpoint walkDecls (nodes : list item) (removeRule : bool) : list item * bool :=
  match nodes with
  | [] => ([], removeRule)
  | Decl prop value :: rest =>
      let '(removed, removeRule) := visitDecl prop value removeRule in
      let '(rest', removeRule) := walkDecls rest removeRule in
      (if removed then rest' else Decl prop value :: rest', removeRule)
  | RuleComment text :: rest =>
      let '(rest', removeRule) := walkDecls rest removeRule in
      (RuleComment text :: rest', removeRule)
  end.

(** [cleanRule(rule)]: [None] when the rule is removed from the tree. *)
Definition cleanRule (selector : string) (nodes : list item)
  : option (string * list item) :=
  if startsWith ".main-color .palatte-" selector then None
  else
    let '(nodes', removeRule) := walkDecls nodes true in
    if removeRule then None else Some (selector, nodes').

(** [css.walkAtRules(atRule => atRule.remove())] *)
Definition walkAtRules (css : list node) : list node :=
  List.filter (λ n, match n with AtRule _ _ _ => false | _ => true end) css.

(** [css.walkRules(cleanRule)] *)
Fixpoint walkRules (css : list node) : list node :=
  match css with
  | [] => []
  | Rule selector nodes :: rest =>
      match cleanRule selector nodes with
      | Some (selector', nodes') => Rule selector' nodes' :: walkRules rest
      | None => walkRules rest
      end
  | n :: rest => n :: walkRules rest
  end.

Definition is_decl (i : item) : bool :=
  match i with Decl _ _ => true | RuleComment _ => false end.

(** [css.walkComments(c => c.remove())] *)
Fixpoint walkComments (css : list node) : list node :=
  match css with
  | [] => []
  | Comment _ :: rest => walkComments rest
  | Rule selector nodes :: rest =>
      Rule selector (List.filter is_decl nodes) :: walkComments rest
  | n :: rest => n :: walkComments rest
  end.

Definition reducePlugin (css : list node) : list node :=
  walkComments (walkRules (walkAtRules css)).

(** *** [generateTheme]: marker assignment (lines 474-495) *)

Record markers : Type := {
  randomColors : gmap string string;      (* variable -> marker color *)
  randomColorsVars : gmap string string;  (* marker color -> variable *)
  markerCss : string
}.

Definition PRIMARY_RANDOM_COLOR : string := "#123456".

(** The condition of the [while] loop. *)
Definition rerolls (randomColorsVars : gmap string string) (color : string) : bool :=
  (match randomColorsVars !! color with Some v => truthy v | None => false end
   && String.eqb color PRIMARY_RANDOM_COLOR)
  || String.eqb color "#000000"
  || String.eqb color "#ffffff".

(** The [while] loop: each turn takes the next draw of [Math.random]; [None]
    when the supplied draws end before a color is accepted. *)
Fixpoint pickColor (randomColorsVars : gmap string string) (color : string)
  (draws : list N) : option (string * list N) :=
  if rerolls randomColorsVars color then
    match draws with
    | [] => None
    | d :: draws' => pickColor randomColorsVars (randomColor d) draws'
    end
  else Some (color, draws).

(** The body of the first [themeVars.forEach]. *)
Definition assignMarker (varName : string) (m : markers) (draws : list N)
  : option (markers * list N) :=
  match draws with
  | [] => None
  | d :: draws =>
      let color := randomColor d in
      '(color, draws) ←
        (if String.eqb varName "@primary-color"
         then Some (PRIMARY_RANDOM_COLOR, draws)
         else pickColor (randomColorsVars m) color draws);
      Some ({| randomColors := <[varName := color]> (randomColors m);
               randomColorsVars := <[color := varName]> (randomColorsVars m);
               markerCss := "." +:+ replace_first "@" EmptyString varName
                            +:+ " { color: " +:+ color +:+ "; }" +:+ LF
                            +:+ " " +:+ markerCss m |},
            draws)
  end.

Fixpoint assignMarkers (themeVars : list string) (m : markers) (draws : list N)
  : option (markers * list N) :=
  match themeVars with
  | [] => Some (m, draws)
  | varName :: themeVars' =>
      '(m, draws) ← assignMarker varName m draws;
      assignMarkers themeVars' m draws
  end.

Definition noMarkers : markers :=
  {| randomColors := ∅; randomColorsVars := ∅; markerCss := EmptyString |}.

(** *** [generateTheme]: shade rules (lines 497-509) *)

Definition shadeKeys : list nat := [1; 2; 3; 4; 5; 7; 8; 9; 10]%nat.

Definition decimal (n : nat) : string := NilZero.string_of_uint (Nat.to_uint n).

Definition shadeName (varName : string) (key : nat) : string :=
  if String.eqb varName "@primary-color"
  then "@primary-" +:+ decimal key
  else varName +:+ "-" +:+ decimal key.

(** One turn of the inner [forEach]: the rule is put in front of [css]. *)
Definition shadeRule (varName : string) (css : string) (key : nat) : result string :=
  let name := shadeName varName key in
  match getShade name with
  | None => Throw "TypeError: varName.match(...) is not iterable"
  | Some shade =>
      Ok ("." +:+ replace_first "@" EmptyString name
          +:+ " { color: " +:+ shade +:+ "; }" +:+ LF +:+ " " +:+ css)
  end.

Fixpoint foldM {A B : Type} (f : B → A → result B) (l : list A) (b : B) : result B :=
  match l with
  | [] => Ok b
  | a :: l' => match f b a with Ok b' => foldM f l' b' | Throw e => Throw e end
  end.

(** The second [themeVars.forEach], on the pair [(css, varsContent)]. *)
Definition addShades (randomColors : gmap string string)
  (acc : string * string) (varName : string) : result (string * string) :=
  match foldM (shadeRule varName) shadeKeys acc.1 with
  | Throw e => Throw e
  | Ok css =>
      Ok (css, acc.2 +:+ varName +:+ ": "
               +:+ propertyKey (randomColors !! varName) +:+ ";" +:+ LF)
  end.

(** *** [generateTheme]: the orchestrator and its cache *)

(** What the process shows to the outside, in order. *)
Inductive event : Type :=
| Globbed (pattern : string)
| Read (path : string)
| Bundled (path : string)
| Compiled
| Logged (e : error).

(** The module-level [hashCache] and [cssCache], and the events so far. *)
Record process : Type := {
  hashCache : string;
  cssCache : string;
  trace : list event
}.

(** The module state right after loading: lines 14-15. *)
Definition fresh : process :=
  {| hashCache := EmptyString; cssCache := EmptyString; trace := [] |}.

(** What the compile-and-assemble stages (lines 515-634) receive. *)
Record assembly : Type := {
  a_mappings : gmap string string;
  a_themeVars : list string;
  a_randomColors : gmap string string;
  a_css : string;
  a_varsContent : string
}.

(** The collaborators of one call: the file system, the glob utility, the
    import bundler, the random source, and the stages from the bundling of
    [colors.less] to [minifyCss] (the stylesheet compiler, PostCSS with
    [reducePlugin], the substitutions), whose result the external compilers
    decide. *)
Record world : Type := {
  path_join : string → string → string;
  glob : string → result (list string);
  readFileSyncProcess : string → result string;
  readFile : string → result string;
  combineLess : string → string → result string;
  draws : list N;
  compileAndAssemble : assembly → result string
}.

Record options : Type := {
  antDir : string;
  antdStylesDir : option string;
  stylesDir : list string;
  varFile : option string;
  themeVariables : option (list string);
  customColorRegexArray : list regex
}.

(** A computation on the process state that returns, throws, or ([None])
    does not come back. *)
Definition M (A : Type) : Type := process → option (result A * process).

#[export] Instance M_ret : MRet M := λ A a st, Some (Ok a, st).
#[export] Instance M_bind : MBind M := λ A B f m st,
  match m st with
  | Some (Ok a, st') => f a st'
  | Some (Throw e, st') => Some (Throw e, st')
  | None => None
  end.

Definition throw {A : Type} (e : error) : M A := λ st, Some (Throw e, st).
Definition hang {A : Type} : M A := λ _, None.
Definition lift {A : Type} (r : result A) : M A := λ st, Some (r, st).
Definition emit (ev : event) : M unit := λ st,
  Some (Ok (), {| hashCache := hashCache st; cssCache := cssCache st;
                  trace := trace st ++ [ev] |}).
(** A call to a collaborator is seen from outside, whatever it answers. *)
Definition call {A : Type} (ev : event) (r : result A) : M A := emit ev;; lift r.
Definition getProcess : M process := λ st, Some (Ok st, st).
Definition setHashCache (h : string) : M unit := λ st,
  Some (Ok (), {| hashCache := h; cssCache := cssCache st; trace := trace st |}).
Definition setCssCache (css : string) : M unit := λ st,
  Some (Ok (), {| hashCache := hashCache st; cssCache := css; trace := trace st |}).

Fixpoint settle {A : Type} (answers : list (result A)) : result (list A) :=
  match answers with
  | [] => Ok []
  | Throw e :: _ => Throw e
  | Ok a :: answers' =>
      match settle answers' with
      | Ok l => Ok (a :: l)
      | Throw e => Throw e
      end
  end.

(** [await Promise.all(xs.map(f))]: every call is issued before an answer
    is awaited. The order in which the promises settle is not part of the
    model: of several rejections the first in the list is the one thrown. *)
Definition promiseAll {A : Type} (calls : list (event * result A)) : M (list A) :=
  λ st, Some (settle (calls.*2),
              {| hashCache := hashCache st; cssCache := cssCache st;
                 trace := trace st ++ calls.*1 |}).

(** [s.slice(0, i)] with [i] the result of [indexOf]; [slice(0, -1)] drops
    the last code unit. *)
Definition slice_to (s : string) (i : option nat) : string :=
  match i with
  | Some i => take i s
  | None => take (String.length s - 1) s
  end.

(** The color functions appended to [customColorRegexArray]. In the template
    literal the backslash before a parenthesis is dropped, so each pattern
    is the name followed by a capturing [(.* )]. *)
Definition builtinColorFunctions : list regex :=
  (λ name, Seq (lit name) (Group 1 (star dot))) <$>
  [ "color"; "lighten"; "darken"; "saturate"; "desaturate"; "fadein";
    "fadeout"; "fade"; "spin"; "mix"; "hsv"; "tint"; "shade"; "greyscale";
    "multiply"; "contrast"; "screen"; "overlay" ].

Section GenerateTheme.

(** [createHash("sha1").update(content).digest("hex")] *)
Variable sha1 : string → string.

(** Lines 388-414: discover the consumer stylesheets and read them. *)
Definition readStyles (w : world) (o : options) : M string :=
  pss ← promiseAll ((λ s, let pattern := path_join w s "./**/*.less" in
                          (Globbed pattern, glob w pattern)) <$> stylesDir o);
  styles ← match pss with
            | [] => throw "TypeError: Reduce of empty array with no initial value"
            | _ => mret (concat pss)
            end;
  pss2 ← promiseAll ((λ filePath, (Read filePath, readFileSyncProcess w filePath))
                     <$> styles);
  mret (String.concat EmptyString pss2).

(** Lines 423-636: everything after the cache check. *)
Definition regenerate (w : world) (o : options) (antdPath nodeModulesPath : string)
  (hashCode : string) : M string :=
  setHashCache hashCode;;
  let themeVars := default ["@primary-color"] (themeVariables o) in
  let varFile :=
    match varFile o with
    | Some f => if truthy f then f
                else path_join w antdPath "./style/themes/default.less"
    | None => path_join w antdPath "./style/themes/default.less"
    end in
  varFileContent ← call (Bundled varFile) (combineLess w varFile nodeModulesPath);
  let customColorRegexArray := app (customColorRegexArray o) builtinColorFunctions in
  let colorMap := generateColorMap varFileContent customColorRegexArray in
  lessVars ← call (Read varFile) (getLessVars (readFile w) varFile);
  let mappings := lessVars ∪ colorMap in
  let themeVars :=
    filter (λ name, name ∈ dom mappings ∧ test re_shade name = false) themeVars in
  m ← match assignMarkers themeVars noMarkers (draws w) with
       | Some (m, _) => mret m
       | None => hang
       end;
  '(css, varsContent) ← lift (foldM (addShades (randomColors m)) themeVars
                                     (markerCss m, EmptyString));
  css ← call Compiled
          (compileAndAssemble w
             {| a_mappings := mappings; a_themeVars := themeVars;
                a_randomColors := randomColors m; a_css := css;
                a_varsContent := varsContent |});
  setCssCache css;;
  mret css.

(** Lines 374-384. *)
Definition antdPathOf (w : world) (o : options) : string :=
  match antdStylesDir o with
  | Some d => if truthy d then d else path_join w (antDir o) "lib"
  | None => path_join w (antDir o) "lib"
  end.

Definition nodeModulesPathOf (w : world) (o : options) : string :=
  path_join w (slice_to (antDir o) (indexOf "node_modules" (antDir o)))
            "./node_modules".

(** The [try] block. *)
Definition generateThemeBody (w : world) (o : options) : M string :=
  let antdPath := antdPathOf w o in
  let nodeModulesPath := nodeModulesPathOf w o in
  content ← readStyles w o;
  let hashCode := sha1 content in
  st ← getProcess;
  if String.eqb hashCode (hashCache st) then mret (cssCache st)
  else regenerate w o antdPath nodeModulesPath hashCode.

(** The [catch] block: log the error and return the empty string. *)
Definition recover (run : option (result string * process))
  : option (string * process) :=
  match run with
  | Some (Ok css, st') => Some (css, st')
  | Some (Throw e, st') =>
      match emit (Logged e) st' with
      | Some (_, st'') => Some (EmptyString, st'')
      | None => None
      end
  | None => None
  end.

(** [generateTheme(options)]: the returned string and the process after
    the call; [None] when the call does not come back. *)
Definition generateTheme (w : world) (o : options) (st : process)
  : option (string * process) :=
  recover (generateThemeBody w o st).

End GenerateTheme.

End Generator.

(** ** The other stages of the pipeline *)

Module Stages.
Import JsString Regex Generator.

(** *** [getMatches] (lines 166-176) *)

(** The pattern of the discovery scan (line 524):
    [/.(?=\S*['-])([.a-zA-Z0-9'-]+)\ {\n {2}color: (.* );/g] *)
Definition re_discover : regex :=
  seq [ dot;
        Ahead (Seq (star (Char (λ a, negb (is_space a))))
                   (Char (λ a, is_char "'" a || is_char "-" a)));
        Group 1 (plus (Char (λ a, is_char "." a || is_alnum a
                                  || is_char "'" a || is_char "-" a)));
        chr " "; chr "{"; chr lf;
        Rep 2 (Some 2%nat) (chr " ");
        lit "color: ";
        Group 2 (star dot);
        chr ";" ].

(** The [while] loop over [regex.exec(string)] for a pattern with the g
    flag. [skip] counts the code units up to [lastIndex]. After an empty
    match [lastIndex] stays where it is and the loop does not end ([None]);
    [match[2].startsWith] throws when the second group took no part. *)
Fixpoint getMatches_from (r : regex) (total : nat) (s : string) (skip : nat)
  (matches : gmap string string) : option (result (gmap string string)) :=
  match skip with
  | S skip' =>
      match s with
      | String _ s' => getMatches_from r total s' skip' matches
      | EmptyString => Some (Ok matches)
      end
  | O =>
      match match_here r total s with
      | None =>
          match s with
          | String _ s' => getMatches_from r total s' 0 matches
          | EmptyString => Some (Ok matches)
          end
      | Some (m, c) =>
          match capture 2 c with
          | None => Some (Throw "TypeError: Cannot read properties of undefined")
          | Some value =>
              let matches :=
                if startsWith "rgba" value || startsWith "#" value
                then <["@" +:+ propertyKey (capture 1 c) := value]> matches
                else matches in
              match m, s with
              | EmptyString, _ => None
              | _, String _ s' =>
                  getMatches_from r total s' (pred (String.length m)) matches
              | _, EmptyString => Some (Ok matches)
              end
          end
      end
  end.

(** [getMatches(string, regex)] *)
Definition getMatches (str : string) (re : regex)
  : option (result (gmap string string)) :=
  getMatches_from re (String.length str) str 0 ∅.

(** *** [compileAllLessFilesToCss]: the last step (lines 342-357) *)

Section Dedupe.

(** [createHash("sha1").update(css).digest("hex")] *)
Variable sha1 : string → string.
(** [stripCssComments(css, { preserve: false })] *)
Variable stripCssComments : string → string.

(** The callback of [csss.map], with the object [hashes] as the set of its
    own keys (a digest is forty hexadecimal digits, never a name that
    [Object.prototype] holds). An element is the [css] of a compiled file,
    or [None] for a file whose compilation failed (the [catch] at line 335
    yields a string, which has no [css]). *)
Fixpoint dedupeFrom (hashes : gset string) (csss : list (option string))
  : list string :=
  match csss with
  | [] => []
  | c :: csss' =>
      let css := stripCssComments (default EmptyString c) in
      let hashCode := sha1 css in
      if decide (hashCode ∈ hashes) then EmptyString :: dedupeFrom hashes csss'
      else css :: dedupeFrom ({[hashCode]} ∪ hashes) csss'
  end.

Definition dedupe (csss : list (option string)) : string :=
  join LF (dedupeFrom ∅ csss).

End Dedupe.

(** *** [generateTheme]: the [fade(...)] sentinels (lines 543-556) *)

(** [/fade\(.*\)/g] *)
Definition re_fade : regex := seq [lit "fade("; star dot; chr ")"].

(** The test inside [fades.forEach]. *)
Definition fadeNeedsSentinel (fade : string) : bool :=
  negb (startsWith "fade(@black" fade)
  && negb (startsWith "fade(@white" fade)
  && negb (startsWith "fade(#" fade)
  && negb (startsWith "fade(@color" fade).

(** [fades.forEach(...)]: each accepted call takes the next draw of
    [Math.random]; [None] when the supplied draws end. *)
Fixpoint fillFadeMap (fades : list string) (fadeMap : gmap string string)
  (draws : list N) : option (gmap string string * list N) :=
  match fades with
  | [] => Some (fadeMap, draws)
  | fade :: fades' =>
      if fadeNeedsSentinel fade then
        match draws with
        | [] => None
        | d :: draws' => fillFadeMap fades' (<[fade := randomColor d]> fadeMap) draws'
        end
      else fillFadeMap fades' fadeMap draws
  end.

(** Lines 543-556; [antdLess.match] is [null] when nothing matches, and the
    map stays empty. *)
Definition buildFadeMap (antdLess : string) (draws : list N)
  : option (gmap string string * list N) :=
  fillFadeMap (match_all re_fade antdLess) ∅ draws.

(** *** [generateTheme]: the combined variables (lines 558-569) *)




End Stages.

(** *** [combineLess] (lines 749-773) *)

Module Bundler.
Import JsString Regex Generator.

(** [s.endsWith(w)] *)
Definition endsWith (w s : string) : bool :=
  (String.length w <=? String.length s)%nat
  && String.eqb (drop (String.length s - String.length w) s) w.

(** [/@import\ ['Q](.* )['Q];/], where [Q] stands for the double quote. *)
Definition re_import : regex :=
  seq [ lit "@import ";
        Char (λ a, is_char dquote a || is_char "'" a);
        Group 1 (star dot);
        Char (λ a, is_char dquote a || is_char "'" a);
        chr ";" ].

(** [Promise.all] on the promises of the lines: it rejects as soon as one
    of them rejects, also while another one never settles, and resolves
    when all have resolved. Which of several failing reads comes first is
    a matter of timing; the one of the earliest line is taken. *)
Fixpoint sequenceM {A : Type} (runs : list (option (result A)))
  : option (result (list A)) :=
  match runs with
  | [] => Some (Ok [])
  | run :: runs' =>
      match run, sequenceM runs' with
      | Some (Throw e), _ => Some (Throw e)
      | _, Some (Throw e) => Some (Throw e)
      | Some (Ok a), Some (Ok l) => Some (Ok (a :: l))
      | _, _ => None
      end
  end.

Section CombineLess.

(** [readFile]: the content of a file, or the error of reading it. *)
Variable readFile : string → result string.
(** [path.dirname] and [path.join] *)
Variable dirname : string → string.
Variable path_join : string → string → string.

(** The path an [@import] line stands for; [None] when the line does not
    have the shape of the pattern and [line.match(...)[1]] throws. *)
Definition importTarget (directory nodeModulesPath line : string) : option string :=
  match exec re_import line with
  | None => None
  | Some (_, c) =>
      let importPath := propertyKey (capture 1 c) in
      let importPath :=
        if endsWith ".less" importPath then importPath
        else importPath +:+ ".less" in
      if startsWith "~" importPath
      then Some (path_join nodeModulesPath
                   ("./" +:+ replace_first "~" EmptyString importPath))
      else Some (path_join directory importPath)
  end.

(** The callback of [map] throws at [line.match(...)[1]] before it reads
    any file: the promise of such a line is rejected from the start. *)
Definition rejectedAtOnce (directory nodeModulesPath line : string) : bool :=
  startsWith "@import" line
  && match importTarget directory nodeModulesPath line with
     | None => true
     | Some _ => false
     end.

(** [combineLess(filePath, nodeModulesPath)]; [fuel] bounds the depth of the
    imports, and [None] stands for a chain of imports that does not end. A
    promise rejected from the start is the first that [Promise.all] sees
    rejected, whatever the reads of the other lines do later. *)
Fixpoint combineLess (fuel : nat) (filePath nodeModulesPath : string)
  : option (result string) :=
  match fuel with
  | O => None
  | S fuel' =>
      match readFile filePath with
      | Throw e => Some (Throw e)
      | Ok fileContent =>
          let directory := dirname filePath in
          let lines := split_char lf fileContent in
          let ps :=
            (λ line,
               if startsWith "@import" line then
                 match importTarget directory nodeModulesPath line with
                 | None => Some (Throw "TypeError: Cannot read properties of null")
                 | Some newPath => combineLess fuel' newPath nodeModulesPath
                 end
               else Some (Ok line)) <$> lines in
          if existsb (rejectedAtOnce directory nodeModulesPath) lines
          then Some (Throw "TypeError: Cannot read properties of null")
          else
            match sequenceM ps with
            | Some (Ok pss) => Some (Ok (join LF pss))
            | Some (Throw e) => Some (Throw e)
            | None => None
            end
      end
  end.

End CombineLess.

End Bundler.

(** ** Statements about the generator *)

Module Spec.
Import JsString Regex Generator.

(** *** Color Classifier *)

(** The first code unit is a hexadecimal digit. *)
Definition starts_hex (s : string) : bool :=
  match s with
  | String a _ => is_hex a
  | EmptyString => false
  end.

(** *** Variable Collector *)

(** Every code unit of [s] satisfies [p]. *)
Fixpoint all_chars (p : ascii → bool) (s : string) : bool :=
  match s with
  | EmptyString => true
  | String a s' => p a && all_chars p s'
  end.

(** Neither a quote nor a hyphen occurs in [s]. *)
Definition unmarked (s : string) : bool :=
  all_chars (λ a, negb (is_char "'" a || is_char "-" a)) s.

(** The variables file of the Variable Collector example. *)
Definition variablesFile : string :=
  String.concat LF ["@a: #111;"; "@b: @a;"; "@c: 10px;"; EmptyString].

(** The same file with a hyphen in every name. *)
Definition hyphenatedFile : string :=
  String.concat LF ["@a-x: #111;"; "@b-x: @a-x;"; "@c-x: 10px;"; EmptyString].



(** The example in the source: [@link-color -> @primary-color -> #1890ff]. *)
Definition linkColorMap : gmap string string :=
  <["@link-color" := "@primary-color"]> (<["@primary-color" := "#1890ff"]> ∅).

(** *** Declaration Pruner *)

(** A property name with one of the four color-bearing words. *)
Definition keyworded (prop : string) : bool :=
  includes "color" prop || includes "background" prop
  || includes "border" prop || includes "box-shadow" prop.

Definition keyworded_decl (i : item) : bool :=
  match i with Decl prop _ => keyworded prop | RuleComment _ => false end.

(** A property name with none of them. *)
Definition colorless (prop : string) : Prop :=
  includes "color" prop = false ∧ includes "background" prop = false
  ∧ includes "border" prop = false ∧ includes "box-shadow" prop = false.

(** A bare number without a unit: digits with at most one point. *)
Definition bareNumber (value : string) : bool :=
  test (seq [Bol; plus (Char is_digit);
             opt (Seq (chr ".") (plus (Char is_digit))); Eol]) value.

(** What [reducePlugin] leaves of a rule. *)
Definition pruneRule (selector : string) (nodes : list item) : list node :=
  match cleanRule selector nodes with
  | Some (selector', nodes') => [Rule selector' (List.filter is_decl nodes')]
  | None => []
  end.

(** No declaration of the rule body has a [url(...)] value. *)
Definition urlFreeBody (nodes : list item) : Prop :=
  ∀ prop value, Decl prop value ∈ nodes → matches_g re_url value = false.

Definition urlFree (css : list node) : Prop :=
  ∀ selector nodes, Rule selector nodes ∈ css → urlFreeBody nodes.

(** The stylesheet [.a { background: url(a.png); }]. *)
Definition urlOnlySheet : list node :=
  [Rule ".a" [Decl "background" "url(a.png)"]].

(** *** Shade rules *)

(** The color-ramp expression for the shade [index] of the variable [base]:
    [color(~`colorPalette(Q@{base}Q, index)`)], with [Q] the double quote. *)
Definition paletteExpr (base index : string) : string :=
  "color(~`colorPalette(" +:+ String dquote "@{" +:+ base +:+ "}"
  +:+ String dquote ", " +:+ index +:+ ")`)".

(** *** The orchestrator *)

(** The events of discovering and reading the consumer stylesheets. *)
Definition io_event (ev : event) : Prop :=
  match ev with
  | Globbed _ | Read _ => True
  | _ => False
  end.

(** A computation that leaves the cache alone and is seen from outside only
    through glob and read events. *)
Definition quiet {A : Type} (c : M A) : Prop :=
  ∀ st r st', c st = Some (r, st') →
    hashCache st' = hashCache st ∧ cssCache st' = cssCache st
    ∧ ∃ evs, trace st' = (trace st ++ evs)%list ∧ Forall io_event evs.

(** A stand-in digest for the examples. *)
Definition toyDigest (content : string) : string := "digest:" +:+ content.

Definition exampleOptions : options :=
  {| antDir := "node_modules/antd"; antdStylesDir := None; stylesDir := ["src"];
     varFile := None; themeVariables := None; customColorRegexArray := [] |}.

(** A project with one consumer stylesheet holding [content], in which
    every collaborator answers. *)
Definition workingWorld (content : string) : world :=
  {| path_join := λ a b, a +:+ "/" +:+ b;
     glob := λ _, Ok ["src/app.less"];
     readFileSyncProcess := λ _, Ok content;
     readFile := λ _, Ok "@primary-color: #1890ff;";
     combineLess := λ _ _, Ok "@primary-color: #1890ff;";
     draws := [5%N];
     compileAndAssemble := λ a, Ok (a_varsContent a) |}.

(** The same project when the variables file cannot be read. *)
Definition brokenWorld (content : string) : world :=
  {| path_join := λ a b, a +:+ "/" +:+ b;
     glob := λ _, Ok ["src/app.less"];
     readFileSyncProcess := λ _, Ok content;
     readFile := λ _, Throw "ENOENT";
     combineLess := λ _ _, Throw "ENOENT";
     draws := [5%N];
     compileAndAssemble := λ a, Ok (a_varsContent a) |}.

(** The process after a run, for the examples. *)
Definition processAfter {A : Type} (run : option (A * process)) : process :=
  match run with
  | Some (_, st) => st
  | None => fresh
  end.

Definition sheetA : string := ".a { color: red; }".

(** The process after a first, successful call on [sheetA]. *)
Definition afterFirstCall : process :=
  processAfter (generateTheme toyDigest (workingWorld sheetA) exampleOptions fresh).

End Spec.

(** *** Predicates for the further properties *)

Module Props.
Import JsString Regex Generator Stages.

(** [s'] is what is left of [s] after some prefix. *)
Definition suffix_of (s' s : string) : Prop := ∃ pre, s = pre +:+ s'.

(** A kept child of a pruned rule: a declaration with a color-bearing
    property name and no [url(...)] in its value. *)
Definition colorDecl (i : item) : Prop :=
  ∃ prop value, i = Decl prop value ∧ Spec.keyworded prop = true
                ∧ matches_g re_url value = false.

(** No line of the file starts with [@import]. *)
Definition importFree (fileContent : string) : Prop :=
  Forall (λ line, startsWith "@import" line = false) (split_char lf fileContent).

(** The markers of a run, for the examples. *)
Definition processMarkers (run : option (markers * list N)) : markers :=
  match run with
  | Some (m, _) => m
  | None => noMarkers
  end.

(** The stripped stylesheet of a compiled file; empty for a failed one. *)
Definition strippedCss (stripCssComments : string → string) (c : option string)
  : string :=
  stripCssComments (default EmptyString c).

(** The result of a match is the result of its continuation somewhere
    further on in the input. *)
Definition answers (step : string → caps → cont → option (string * caps)) : Prop :=
  ∀ s c k x, step s c k = Some x →
             ∃ s' c', suffix_of s' s ∧ k s' c' = Some x.


(** The sentinel stays with the primary variable once it has it. *)
Definition sentinelKept (m : markers) : Prop :=
  randomColors m !! "@primary-color" = Some PRIMARY_RANDOM_COLOR
  ∧ randomColorsVars m !! PRIMARY_RANDOM_COLOR = Some "@primary-color"
  ∧ ∀ v, randomColors m !! v = Some PRIMARY_RANDOM_COLOR → v = "@primary-color".

(** What the scan puts in its result. *)
Definition discovered (m : gmap string string) : Prop :=
  ∀ k v, m !! k = Some v →
         startsWith "@" k = true
         ∧ startsWith "rgba" v || startsWith "#" v = true.

(** What every entry of the sentinel map satisfies. *)
Definition fadeEntries (fades : list string) (draws : list N) (extra : list regex)
  (fadeMap : gmap string string) : Prop :=
  ∀ fade color, fadeMap !! fade = Some color →
    fade ∈ fades ∧ fadeNeedsSentinel fade = true
    ∧ (∃ d, d ∈ draws ∧ color = randomColor d)
    ∧ isValidColor (Some color) extra = true.

End Props.

Import JsString Regex Generator Spec.

(** *** The matcher *)

(** A matcher consults its continuation only on inputs that are not longer
    than its own. *)
Definition local (step : string → caps → cont → option (string * caps)) : Prop :=
  ∀ s c k k',
    (∀ s' c', (String.length s' ≤ String.length s)%nat → k s' c' = k' s' c') →
    step s c k = step s c k'.

Lemma rep_loop_cont step (Hstep : local step) fuel :
  ∀ lo hi s c k k',
    (∀ s' c', (String.length s' ≤ String.length s)%nat → k s' c' = k' s' c') →
    rep_loop step k fuel lo hi s c = rep_loop step k' fuel lo hi s c.
Proof.
  induction fuel as [|fuel IH]; intros lo hi s c k k' Hk; [reflexivity|].
  assert (Hagain : step s c
            (λ s' c', if (lo =? 0)%nat && (String.length s' =? String.length s)%nat
                      then None
                      else rep_loop step k fuel (pred lo) (pred <$> hi) s' c')
          = step s c
            (λ s' c', if (lo =? 0)%nat && (String.length s' =? String.length s)%nat
                      then None
                      else rep_loop step k' fuel (pred lo) (pred <$> hi) s' c')).
  { apply Hstep. intros s' c' Hle.
    destruct ((lo =? 0)%nat && (String.length s' =? String.length s)%nat);
      [reflexivity|].
    apply IH. intros s'' c'' Hle'. apply Hk. lia. }
  simpl. rewrite Hagain, (Hk s c) by lia.
  destruct hi as [[|n]|]; reflexivity.
Qed.

(** Any fuel above [lo + length s] gives the same result. *)
Lemma rep_loop_fuel step (Hstep : local step) k fuel1 :
  ∀ fuel2 lo hi s c,
    (lo + String.length s < fuel1)%nat → (lo + String.length s < fuel2)%nat →
    rep_loop step k fuel1 lo hi s c = rep_loop step k fuel2 lo hi s c.
Proof.
  induction fuel1 as [|fuel1 IH]; intros fuel2 lo hi s c H1 H2; [lia|].
  destruct fuel2 as [|fuel2]; [lia|].
  assert (Hagain : step s c
            (λ s' c', if (lo =? 0)%nat && (String.length s' =? String.length s)%nat
                      then None
                      else rep_loop step k fuel1 (pred lo) (pred <$> hi) s' c')
          = step s c
            (λ s' c', if (lo =? 0)%nat && (String.length s' =? String.length s)%nat
                      then None
                      else rep_loop step k fuel2 (pred lo) (pred <$> hi) s' c')).
  { apply Hstep. intros s' c' Hle.
    destruct (Nat.eqb_spec lo 0) as [->|Hlo]; simpl.
    - destruct (Nat.eqb_spec (String.length s') (String.length s)); [reflexivity|].
      apply IH; lia.
    - apply IH; lia. }
  simpl. rewrite Hagain. reflexivity.
Qed.

Lemma rmatch_local r total : local (λ s c k, rmatch r total s c k).
Proof.
  induction r as [|p|r1 IH1 r2 IH2|r1 IH1 r2 IH2|lo hi r1 IH|i r1 IH|r1 IH| |];
    intros s c k k' Hk; cbn [rmatch].
  - apply Hk. lia.
  - destruct s as [|a s]; [reflexivity|].
    destruct (p a); [|reflexivity]. apply Hk. simpl. lia.
  - apply IH1. intros s' c' Hle. apply IH2. intros s'' c'' Hle'. apply Hk. lia.
  - rewrite (IH1 s c k k' Hk), (IH2 s c k k' Hk). reflexivity.
  - apply rep_loop_cont; [|exact Hk].
    intros s' c' k1 k2 Hk12. apply IH. exact Hk12.
  - apply IH. intros s' c' Hle. apply Hk. exact Hle.
  - destruct (rmatch r1 total s c (λ s' c', Some (s', c'))) as [[? c']|];
      [|reflexivity].
    apply Hk. lia.
  - destruct (String.length s =? total)%nat; [|reflexivity]. apply Hk. lia.
  - destruct s; [|reflexivity]. apply Hk. lia.
Qed.

(** The quantifier obeys the recursion of [RepeatMatcher], without fuel. *)
Lemma rmatch_Rep lo hi r total s c k :
  rmatch (Rep lo hi r) total s c k
  = match hi with
    | Some O => k s c
    | _ =>
        match rmatch r total s (clear (groups r) c)
                (λ s' c',
                   if (lo =? 0)%nat && (String.length s' =? String.length s)%nat
                   then None
                   else rmatch (Rep (pred lo) (pred <$> hi) r) total s' c' k) with
        | Some x => Some x
        | None => if (lo =? 0)%nat then k s c else None
        end
    end.
Proof.
  set (step := λ s' c' k', rmatch r total s' (clear (groups r) c') k').
  assert (Hstep : local step).
  { intros s1 c1 k1 k2 Hk12. apply (rmatch_local r total). exact Hk12. }
  assert (Hfold : ∀ lo' hi' s' c',
            rmatch (Rep lo' hi' r) total s' c' k
            = rep_loop step k (S (lo' + String.length s')) lo' hi' s' c')
    by reflexivity.
  rewrite Hfold. cbn [rep_loop].
  assert (Hagain :
    step s c
      (λ s' c', if (lo =? 0)%nat && (String.length s' =? String.length s)%nat
                then None
                else rep_loop step k (lo + String.length s) (pred lo)
                       (pred <$> hi) s' c')
    = step s c
        (λ s' c', if (lo =? 0)%nat && (String.length s' =? String.length s)%nat
                  then None
                  else rmatch (Rep (pred lo) (pred <$> hi) r) total s' c' k)).
  { apply Hstep. intros s' c' Hle. rewrite Hfold.
    destruct (Nat.eqb_spec lo 0) as [->|Hlo]; cbn [andb].
    - destruct (Nat.eqb_spec (String.length s') (String.length s)); [reflexivity|].
      apply rep_loop_fuel; [exact Hstep | simpl; lia | simpl; lia].
    - apply rep_loop_fuel; [exact Hstep | lia | lia]. }
  rewrite Hagain. reflexivity.
Qed.

(** *** Color Classifier *)

(** C6: with no extra pattern, [isValidColor] accepts [#fff], [#ffffff],
    [#ffff], [#ffffffff], [rgba(0,0,0,0.5)] and [hsl(10, 50%, 50%)], and
    rejects [20px], the empty string, [undefined] and the bare number [10]. *)
Theorem isValidColor_examples :
  Forall (λ color, isValidColor (Some color) [] = true)
    ["#fff"; "#ffffff"; "#ffff"; "#ffffffff"; "rgba(0,0,0,0.5)";
     "hsl(10, 50%, 50%)"]
  ∧ isValidColor (Some "20px") [] = false
  ∧ isValidColor (Some EmptyString) [] = false
  ∧ isValidColor None [] = false
  ∧ isValidColor (Some "10") [] = false.
Proof.
  split; [repeat constructor|]; vm_compute; auto.
Qed.

(** *** Variable Collector *)

Lemma rmatch_Char p total a s c k :
  rmatch (Char p) total (String a s) c k = if p a then k s c else None.
Proof. reflexivity. Qed.

Lemma rmatch_Seq r1 r2 total s c k :
  rmatch (Seq r1 r2) total s c k
  = rmatch r1 total s c (λ s' c', rmatch r2 total s' c' k).
Proof. reflexivity. Qed.

Lemma rmatch_Ahead r total s c k :
  rmatch (Ahead r) total s c k
  = match rmatch r total s c (λ s' c', Some (s', c')) with
    | Some (_, c') => k s c'
    | None => None
    end.
Proof. reflexivity. Qed.

(** The lookahead of the line pattern fails wherever no quote or hyphen
    follows, so a text without them is skipped as a whole. *)
Lemma lookahead_needs_mark total k s :
  unmarked s = true →
  ∀ c, rmatch (star (Char (λ a, negb (is_space a)))) total s c
         (λ s' c', rmatch (Char (λ a, is_char "'" a || is_char "-" a))
                     total s' c' k) = None.
Proof.
  unfold star. induction s as [|a s IH]; intros Hs c; rewrite rmatch_Rep.
  - reflexivity.
  - cbn [all_chars unmarked] in Hs. apply andb_true_iff in Hs as [Ha Hs].
    apply negb_true_iff in Ha.
    assert (Hlen : (String.length s =? String.length (String a s))%nat = false)
      by (apply Nat.eqb_neq; simpl; lia).
    rewrite rmatch_Char.
    cbn [Nat.eqb andb Init.Nat.pred fmap option_fmap option_map].
    rewrite Hlen, (IH Hs), rmatch_Char, Ha.
    destruct (negb (is_space a)); reflexivity.
Qed.

Lemma color_line_needs_mark total s :
  unmarked s = true → search re_color_line total s = None.
Proof.
  induction s as [|a s IH]; intros Hs.
  - reflexivity.
  - cbn [search]. unfold match_here, re_color_line. cbn [seq].
    rewrite rmatch_Seq, rmatch_Ahead, rmatch_Seq.
    rewrite (lookahead_needs_mark total _ _ Hs).
    apply IH. cbn [all_chars unmarked] in Hs.
    apply andb_true_iff in Hs as [_ Hs]. exact Hs.
Qed.

Lemma split_char_all p sep s :
  all_chars p s = true → Forall (λ line, all_chars p line = true) (split_char sep s).
Proof.
  induction s as [|a s IH]; intros Hs; simpl.
  - repeat constructor.
  - simpl in Hs. apply andb_true_iff in Hs as [Ha Hs]. specialize (IH Hs).
    destruct (Ascii.eqb a sep).
    + constructor; [reflexivity | exact IH].
    + destruct (split_char sep s) as [|line lines]; constructor.
      * simpl. rewrite Ha. reflexivity.
      * constructor.
      * inversion IH; subst. simpl. rewrite Ha. assumption.
      * inversion IH; subst. assumption.
Qed.

(** A variables file without a quote or a hyphen yields the empty colors
    map, whatever its declarations. *)
Lemma generateColorMap_needs_mark content extra :
  unmarked content = true → generateColorMap content extra = ∅.
Proof.
  intros Hc. unfold generateColorMap.
  pose proof (split_char_all _ lf content Hc) as Hlines.
  set (keep := λ line : string,
         startsWith "@" line && bool_decide (is_Some (indexOf ":" line))).
  assert (Hfold : ∀ lines prev,
            Forall (λ line, unmarked line = true) lines →
            fold_left (colorMapStep extra) (filter keep lines) prev = prev).
  { induction lines as [|line lines IH]; intros prev Hall; [reflexivity|].
    inversion Hall as [|? ? Hline Hrest]; subst.
    rewrite filter_cons. destruct (decide (keep line)); [|apply IH, Hrest].
    simpl. unfold colorMapStep at 2, exec.
    rewrite (color_line_needs_mark _ _ Hline). apply IH, Hrest. }
  apply Hfold. exact Hlines.
Qed.

(** C1, as stated, fails: the colors-map pass does not contain [@a]. The
    line pattern starts with a lookahead for a quote or a hyphen, and no
    line of the file has one. *)
Lemma generateColorMap_plain_names_counterexample :
  ¬ (generateColorMap variablesFile [] !! "@a" = Some "#111"
     ∧ generateColorMap variablesFile [] !! "@b" = Some "#111"
     ∧ generateColorMap variablesFile [] !! "@c" = None
     ∧ lessVarsOfSheet variablesFile !! "@c" = Some "10px").
Proof.
  intros [Ha _]. vm_compute in Ha. discriminate Ha.
Qed.

(** C1, amended: on the example file the colors-map pass yields the empty
    mapping, so it has none of [@a], [@b], [@c]; the raw pass has
    [@c -> 10px] (and [@a -> #111], [@b -> @a]). With a hyphen in each name
    the colors-map pass has [@a-x -> #111], the alias [@b-x -> #111]
    resolved through [@a-x], and no [@c-x]. *)
Theorem variable_collector_example :
  generateColorMap variablesFile [] = ∅
  ∧ getLessVars (λ _, Ok variablesFile) "variables.less"
    = Ok (<["@a" := "#111"]> (<["@b" := "@a"]> (<["@c" := "10px"]> ∅)))
  ∧ lessVarsOfSheet variablesFile !! "@c" = Some "10px"
  ∧ generateColorMap hyphenatedFile [] !! "@a-x" = Some "#111"
  ∧ generateColorMap hyphenatedFile [] !! "@b-x" = Some "#111"
  ∧ generateColorMap hyphenatedFile [] !! "@c-x" = None.
Proof.
  repeat split; vm_compute; reflexivity.
Qed.

(** *** The hexadecimal branch of the classifier *)

Lemma match_all_nonempty_search r total s :
  match_all_from r total s 0 = [] ↔ search r total s = None.
Proof.
  induction s as [|a s IH]; simpl.
  - destruct (match_here r total EmptyString) as [[m c]|]; split; congruence.
  - destruct (match_here r total (String a s)) as [[m c]|].
    + split; congruence.
    + exact IH.
Qed.

Lemma px_here total s :
  match_here re_px total s = None ↔ startsWith "px" s = false.
Proof.
  unfold match_here, re_px.
  destruct s as [|a [|b s]]; cbn [lit chr rmatch startsWith].
  - tauto.
  - destruct (is_char "p" a); simpl; tauto.
  - destruct (is_char "p" a); [|simpl; tauto].
    destruct (is_char "x" b); simpl; [|tauto].
    split; congruence.
Qed.

Lemma px_search total s :
  search re_px total s = None ↔ includes "px" s = false.
Proof.
  induction s as [|a s IH].
  - simpl. pose proof (px_here total EmptyString) as H.
    destruct (match_here re_px total EmptyString); simpl in *; tauto.
  - cbn [search includes].
    pose proof (px_here total (String a s)) as H.
    destruct (match_here re_px total (String a s)) as [m|].
    + destruct (startsWith "px" (String a s)); simpl.
      * split; congruence.
      * destruct H as [_ H]. specialize (H eq_refl). congruence.
    + destruct H as [H _]. rewrite (H eq_refl). simpl. exact IH.
Qed.

(** [color.match(/px/g)] is truthy exactly when [color] contains [px]. *)
Lemma matches_px s : matches_g re_px s = includes "px" s.
Proof.
  unfold matches_g, match_all.
  pose proof (match_all_nonempty_search re_px (String.length s) s) as H1.
  pose proof (px_search (String.length s) s) as H2.
  destruct (match_all_from re_px (String.length s) s 0);
    destruct (includes "px" s); try reflexivity.
  - destruct H1 as [H1 _]. specialize (H1 eq_refl). apply H2 in H1. congruence.
  - destruct H2 as [_ H2]. specialize (H2 eq_refl). apply H1 in H2. congruence.
Qed.

Lemma hex_not_space a : is_hex a = true → is_space a = false.
Proof.
  destruct a as [[] [] [] [] [] [] [] []]; vm_compute; congruence.
Qed.

Lemma hex_not_sign a : is_hex a = true → a ≠ "-"%char ∧ a ≠ "+"%char.
Proof.
  destruct a as [[] [] [] [] [] [] [] []]; vm_compute; intros; split; congruence.
Qed.

Lemma hex_prefix_starts s : starts_hex s = true → hex_prefix s ≠ EmptyString.
Proof.
  destruct s as [|a s]; simpl; [congruence|].
  intros ->. congruence.
Qed.

(** [parseInt(rest, 16)] is a number when [rest] starts with a hexadecimal
    digit that is not the [0] of a [0x] prefix without a digit behind it. *)
Lemma parseInt16_number rest :
  starts_hex rest = true →
  (startsWith "0x" rest || startsWith "0X" rest = true →
   starts_hex (drop 2 rest) = true) →
  isNaN (parseInt16 rest) = false.
Proof.
  intros Hhex Hprefix. unfold parseInt16.
  destruct rest as [|a rest]; [discriminate|]. simpl in Hhex.
  cbn [trim_start]. rewrite (hex_not_space a Hhex).
  destruct (hex_not_sign a Hhex) as [Hm Hp].
  assert (Hsign :
    match String a rest with
    | String "-" s' => (true, s')
    | String "+" s' => (false, s')
    | _ => (false, String a rest)
    end = (false, String a rest)).
  { destruct a as [[] [] [] [] [] [] [] []]; try reflexivity; congruence. }
  rewrite Hsign. clear Hsign.
  destruct (startsWith "0x" (String a rest) || startsWith "0X" (String a rest)) eqn:E.
  - specialize (Hprefix eq_refl).
    pose proof (hex_prefix_starts _ Hprefix) as Hne.
    destruct (hex_prefix (drop 2 (String a rest))); [congruence|reflexivity].
  - assert (Hne : hex_prefix (String a rest) ≠ EmptyString)
      by (apply hex_prefix_starts; exact Hhex).
    destruct (hex_prefix (String a rest)); [congruence|reflexivity].
Qed.

(** C10, as stated, fails: [#1px] has a remainder of length 3 that starts
    with the hexadecimal digit [1], and is rejected by the [px] test that
    comes before the hexadecimal branch. *)
Lemma hex_prefix_claim_counterexample :
  ¬ (∀ rest : string,
       String.length rest ∈ [3; 4; 6; 8]%nat →
       starts_hex rest = true →
       isValidColor (Some (String "#" rest)) [] = true).
Proof.
  intros H. specialize (H "1px").
  assert (Hlen : String.length "1px" ∈ [3; 4; 6; 8]%nat) by (simpl; set_solver).
  specialize (H Hlen eq_refl). vm_compute in H. discriminate H.
Qed.

(** C10, amended: for every string [#rest] without [px] in it, whose
    remainder has length 3, 4, 6 or 8 and starts with a hexadecimal digit
    (when the remainder starts with [0x] or [0X], the digit must follow that
    prefix, which [parseInt] skips), [isValidColor] returns [true], whatever
    the characters after that digit and whatever the extra patterns. *)
Theorem isValidColor_hex_leading_digit (rest : string) (extra : list regex) :
  String.length rest ∈ [3; 4; 6; 8]%nat →
  starts_hex rest = true →
  includes "px" (String "#" rest) = false →
  (startsWith "0x" rest || startsWith "0X" rest = true →
   starts_hex (drop 2 rest) = true) →
  isValidColor (Some (String "#" rest)) extra = true.
Proof.
  intros Hlen Hhex Hpx Hprefix. unfold isValidColor.
  cbn [truthy andb negb orb].
  destruct (includes "rgb" (String "#" rest)); [reflexivity|].
  rewrite matches_px, Hpx.
  destruct (matches_g re_palette_fade (String "#" rest)); [reflexivity|].
  change (charAt0 (String "#" rest)) with "#".
  change (substring_from 1 (String "#" rest)) with rest.
  cbn [String.eqb Ascii.eqb Bool.eqb].
  rewrite (bool_decide_eq_true_2 _ Hlen).
  rewrite (parseInt16_number rest Hhex Hprefix). reflexivity.
Qed.

Lemma isValidColor_hex_leading_digit_witness :
  isValidColor (Some "#1zz") [] = true.
Proof.
  apply (isValidColor_hex_leading_digit "1zz" []).
  - simpl. set_solver.
  - reflexivity.
  - reflexivity.
  - vm_compute. discriminate.
Defined.

(** *** Alias resolution *)

Section GetColor.

Variable m : gmap string string.







End GetColor.





Example getColor_link_color :
  getColor 3 "@link-color" linkColorMap = Some (Some "#1890ff").
Proof. vm_compute. reflexivity. Qed.

(** *** Declaration Pruner *)

Lemma visitDecl_colorless prop value removeRule :
  colorless prop → visitDecl prop value removeRule = (true, removeRule).
Proof.
  intros (H1 & H2 & H3 & H4). unfold visitDecl.
  rewrite H1, H2, H3, H4. reflexivity.
Qed.

Lemma walkDecls_drops_colorless prop value :
  colorless prop →
  ∀ nodes removeRule, Decl prop value ∉ (walkDecls nodes removeRule).1.
Proof.
  intros Hprop nodes. induction nodes as [|[p v|text] rest IH]; intros b; simpl.
  - apply not_elem_of_nil.
  - destruct (visitDecl p v b) as [removed b'] eqn:Hvisit.
    specialize (IH b'). destruct (walkDecls rest b') as [rest' b'']. simpl in *.
    destruct removed; [exact IH|].
    apply not_elem_of_cons. split; [|exact IH].
    intros Heq. injection Heq as -> ->.
    rewrite (visitDecl_colorless _ _ _ Hprop) in Hvisit. discriminate Hvisit.
  - specialize (IH b). destruct (walkDecls rest b) as [rest' b']. simpl in *.
    apply not_elem_of_cons. split; [discriminate | exact IH].
Qed.

Lemma reducePlugin_cons n css :
  reducePlugin (n :: css)
  = (match n with
     | Rule selector nodes => pruneRule selector nodes
     | _ => []
     end ++ reducePlugin css)%list.
Proof.
  unfold reducePlugin, pruneRule. destruct n as [selector nodes| |]; simpl; try reflexivity.
  destruct (cleanRule selector nodes) as [[selector' nodes']|]; reflexivity.
Qed.

Lemma reducePlugin_rule css selector nodes :
  Rule selector nodes ∈ reducePlugin css →
  ∃ selector0 nodes0 nodes1,
    Rule selector0 nodes0 ∈ css
    ∧ cleanRule selector0 nodes0 = Some (selector, nodes1)
    ∧ nodes = List.filter is_decl nodes1.
Proof.
  induction css as [|n css IH]; [intros H; inversion H|].
  rewrite reducePlugin_cons. intros [H|H]%elem_of_app.
  - destruct n as [selector0 nodes0| |]; try (inversion H; fail).
    unfold pruneRule in H.
    destruct (cleanRule selector0 nodes0) as [[selector' nodes']|] eqn:Hclean;
      [|inversion H].
    apply list_elem_of_singleton in H. injection H as -> ->.
    exists selector0, nodes0, nodes'. split; [left|]. split; [exact Hclean | reflexivity].
  - destruct (IH H) as (s0 & n0 & n1 & Hin & Hrest).
    exists s0, n0, n1. split; [right; exact Hin | exact Hrest].
Qed.

(** C2, as stated, fails: [padding: 0] - the example in the comment above
    [reducePlugin] - has the bare number [0] as its value and is removed. *)
Lemma numeric_declaration_removed_counterexample :
  colorless "padding" ∧ bareNumber "0" = true
  ∧ visitDecl "padding" "0" true = (true, true)
  ∧ reducePlugin [Rule ".body" [Decl "color" "#000"; Decl "padding" "0"]]
    = [Rule ".body" [Decl "color" "#000"]].
Proof.
  repeat split; vm_compute; reflexivity.
Qed.

(** C2, amended: a declaration whose property name contains none of
    [color], [background], [border], [box-shadow] is removed whatever its
    value, a bare number included: the callback removes it and leaves the
    rule's flag alone, [cleanRule] keeps no such declaration, and none is
    left in the output of [reducePlugin]. *)
Theorem colorless_declaration_removed (prop value : string) :
  colorless prop →
  (∀ removeRule, visitDecl prop value removeRule = (true, removeRule))
  ∧ (∀ selector nodes selector' nodes',
       cleanRule selector nodes = Some (selector', nodes') →
       Decl prop value ∉ nodes')
  ∧ (∀ css selector nodes,
       Rule selector nodes ∈ reducePlugin css → Decl prop value ∉ nodes).
Proof.
  intros Hprop.
  assert (Hclean : ∀ selector nodes selector' nodes',
            cleanRule selector nodes = Some (selector', nodes') →
            Decl prop value ∉ nodes').
  { intros selector nodes selector' nodes'. unfold cleanRule.
    destruct (startsWith ".main-color .palatte-" selector); [discriminate|].
    pose proof (walkDecls_drops_colorless prop value Hprop nodes true) as Hdrop.
    destruct (walkDecls nodes true) as [kept removeRule]. simpl in Hdrop.
    destruct removeRule; [discriminate|].
    intros [= _ <-]. exact Hdrop. }
  split; [intros b; apply visitDecl_colorless, Hprop|].
  split; [exact Hclean|].
  intros css selector nodes Hin.
  destruct (reducePlugin_rule _ _ _ Hin) as (s0 & n0 & n1 & _ & Hc & ->).
  intros Hd. apply list_elem_of_In, filter_In in Hd. destruct Hd as [Hd _].
  apply list_elem_of_In in Hd. exact (Hclean _ _ _ _ Hc Hd).
Qed.

Lemma colorless_declaration_removed_witness :
  visitDecl "z-index" "10" true = (true, true).
Proof.
  apply (colorless_declaration_removed "z-index" "10").
  vm_compute. auto.
Defined.

(** C7 fails on [.a { background: url(a.png); }]: the declaration is removed
    for its [url(...)] value, yet its property name clears the flag
    [removeRule], so the first run leaves the rule [.a] without a
    declaration; the second run finds no declaration in it and removes it. *)
Theorem reducePlugin_not_idempotent :
  reducePlugin urlOnlySheet = [Rule ".a" []]
  ∧ reducePlugin (reducePlugin urlOnlySheet) = []
  ∧ reducePlugin (reducePlugin urlOnlySheet) ≠ reducePlugin urlOnlySheet.
Proof.
  split; [vm_compute; reflexivity|].
  split; [vm_compute; reflexivity|].
  vm_compute. discriminate.
Qed.

(** Away from [url(...)] values the transform is idempotent: the missing
    case of the [removeRule] flag is the only source of a second change. *)

Lemma visitDecl_keyworded prop value removeRule :
  visitDecl prop value removeRule
  = if keyworded prop then (matches_g re_url value, false) else (true, removeRule).
Proof.
  unfold visitDecl, keyworded.
  destruct (includes "color" prop), (includes "background" prop),
    (includes "border" prop), (includes "box-shadow" prop); reflexivity.
Qed.

Lemma walkDecls_urlFree nodes :
  urlFreeBody nodes →
  ∀ removeRule,
    walkDecls nodes removeRule
    = (List.filter (λ i, keyworded_decl i || negb (is_decl i)) nodes,
       removeRule && forallb (λ i, negb (keyworded_decl i)) nodes).
Proof.
  induction nodes as [|[prop value|text] rest IH]; intros Hfree b; simpl.
  - rewrite andb_true_r. reflexivity.
  - rewrite visitDecl_keyworded.
    assert (Hrest : urlFreeBody rest) by (intros p v Hin; apply (Hfree p v); right; exact Hin).
    destruct (keyworded prop) eqn:Hkw; simpl.
    + rewrite (Hfree prop value) by left. rewrite (IH Hrest false). simpl.
      rewrite andb_false_r. reflexivity.
    + rewrite (IH Hrest b). reflexivity.
  - assert (Hrest : urlFreeBody rest) by (intros p v Hin; apply (Hfree p v); right; exact Hin).
    rewrite (IH Hrest b). reflexivity.
Qed.

Lemma pruneRule_fixed selector nodes selector' nodes' :
  urlFreeBody nodes →
  pruneRule selector nodes = [Rule selector' nodes'] →
  urlFreeBody nodes' ∧ pruneRule selector' nodes' = [Rule selector' nodes'].
Proof.
  intros Hfree. unfold pruneRule, cleanRule.
  destruct (startsWith ".main-color .palatte-" selector) eqn:Hsel; [discriminate|].
  rewrite (walkDecls_urlFree nodes Hfree true).
  cbv beta iota zeta. rewrite andb_true_l.
  destruct (forallb (λ i, negb (keyworded_decl i)) nodes) eqn:Hall; [discriminate|].
  intros [= <- <-].
  set (kept := List.filter is_decl
                 (List.filter (λ i, keyworded_decl i || negb (is_decl i)) nodes)).
  assert (Hkept : ∀ i, i ∈ kept ↔ i ∈ nodes ∧ keyworded_decl i = true ∧ is_decl i = true).
  { intros i. unfold kept. rewrite !list_elem_of_In, !filter_In.
    destruct (keyworded_decl i), (is_decl i); simpl; tauto. }
  assert (Hfree' : urlFreeBody kept).
  { intros p v Hin. apply Hkept in Hin as [Hin _]. exact (Hfree p v Hin). }
  split; [exact Hfree'|].
  rewrite Hsel, (walkDecls_urlFree kept Hfree' true).
  cbv beta iota zeta. rewrite andb_true_l.
  assert (Hsome : forallb (λ i, negb (keyworded_decl i)) kept = false).
  { apply not_true_is_false. intros Hforall.
    rewrite forallb_forall in Hforall.
    assert (Hnone : forallb (λ i, negb (keyworded_decl i)) nodes = true).
    { apply forallb_forall. intros i Hi.
      destruct (keyworded_decl i) eqn:Hkw; [|reflexivity].
      assert (Hin : i ∈ kept).
      { apply Hkept. split; [apply list_elem_of_In, Hi|]. split; [exact Hkw|].
        destruct i; [reflexivity | discriminate]. }
      apply list_elem_of_In, Hforall in Hin. rewrite Hkw in Hin. discriminate. }
    congruence. }
  rewrite Hsome. f_equal. f_equal.
  assert (Hfix : ∀ l : list item,
            (∀ i, i ∈ l → keyworded_decl i = true ∧ is_decl i = true) →
            List.filter is_decl
              (List.filter (λ i, keyworded_decl i || negb (is_decl i)) l) = l).
  { induction l as [|i l IHl]; intros Hl; [reflexivity|].
    destruct (Hl i) as [Hk Hd]; [left|]. simpl. rewrite Hk. simpl. rewrite Hd.
    f_equal. apply IHl. intros j Hj. apply Hl. right. exact Hj. }
  apply Hfix. intros i Hi. apply Hkept in Hi. tauto.
Qed.

Lemma reducePlugin_app css1 css2 :
  reducePlugin (css1 ++ css2)%list = (reducePlugin css1 ++ reducePlugin css2)%list.
Proof.
  induction css1 as [|n css1 IH]; [reflexivity|].
  rewrite <- app_comm_cons, !reducePlugin_cons, IH, app_assoc. reflexivity.
Qed.

Lemma reducePlugin_idempotent_urlFree css :
  urlFree css → reducePlugin (reducePlugin css) = reducePlugin css.
Proof.
  induction css as [|n css IH]; intros Hfree; [reflexivity|].
  assert (Hrest : urlFree css) by (intros s ns Hin; apply (Hfree s ns); right; exact Hin).
  rewrite reducePlugin_cons, reducePlugin_app, (IH Hrest). f_equal.
  destruct n as [selector nodes| |]; try reflexivity.
  assert (Hbody : urlFreeBody nodes) by (apply (Hfree selector); left).
  destruct (pruneRule selector nodes) as [|r [|r' rs]] eqn:Hprune; [reflexivity| |].
  - assert (∃ s' ns', r = Rule s' ns') as (s' & ns' & ->).
    { unfold pruneRule in Hprune.
      destruct (cleanRule selector nodes) as [[s' ns']|]; [|discriminate].
      injection Hprune as <-. eauto. }
    destruct (pruneRule_fixed _ _ _ _ Hbody Hprune) as [_ Hfix].
    rewrite (reducePlugin_cons (Rule s' ns') []). cbv beta iota.
    rewrite Hfix. reflexivity.
  - unfold pruneRule in Hprune.
    destruct (cleanRule selector nodes) as [[s' ns']|]; discriminate.
Qed.

(** *** Marker assignment *)

Lemma pickColor_accepted rcv draws :
  ∀ color c rest, pickColor rcv color draws = Some (c, rest) → rerolls rcv c = false.
Proof.
  induction draws as [|d draws IH]; intros color c rest; simpl;
    destruct (rerolls rcv color) eqn:Hre; try discriminate.
  - intros [= <- _]. exact Hre.
  - apply IH.
  - intros [= <- _]. exact Hre.
Qed.

Lemma rerolls_black_white rcv c :
  rerolls rcv c = false → c ≠ "#000000" ∧ c ≠ "#ffffff".
Proof.
  unfold rerolls. intros H. split; intros ->; simpl in H.
  - rewrite orb_true_r in H. discriminate H.
  - rewrite orb_true_r in H. discriminate H.
Qed.

(** The part of the collision policy that holds: no variable is given pure
    black or pure white. *)
Lemma assignMarkers_never_black_white themeVars :
  ∀ m draws m' draws',
    (∀ v c, randomColors m !! v = Some c → c ≠ "#000000" ∧ c ≠ "#ffffff") →
    assignMarkers themeVars m draws = Some (m', draws') →
    ∀ v c, randomColors m' !! v = Some c → c ≠ "#000000" ∧ c ≠ "#ffffff".
Proof.
  induction themeVars as [|varName themeVars IH]; intros m draws m' draws' Hm; simpl.
  - intros [= <- _]. exact Hm.
  - destruct (assignMarker varName m draws) as [[m1 draws1]|] eqn:Hstep;
      [|discriminate].
    simpl. apply IH. clear IH.
    unfold assignMarker in Hstep. destruct draws as [|d draws]; [discriminate|].
    destruct (String.eqb varName "@primary-color").
    + simpl in Hstep. injection Hstep as <- _. simpl.
      intros v c Hv. apply lookup_insert_Some in Hv as [[_ <-]|[_ Hv]].
      * split; discriminate.
      * exact (Hm v c Hv).
    + destruct (pickColor (randomColorsVars m) (randomColor d) draws)
        as [[color rest]|] eqn:Hpick; [|discriminate].
      simpl in Hstep. injection Hstep as <- _. simpl.
      intros v c Hv. apply lookup_insert_Some in Hv as [[_ <-]|[_ Hv]].
      * eapply rerolls_black_white, pickColor_accepted, Hpick.
      * exact (Hm v c Hv).
Qed.

(** C3 fails. The loop re-rolls a color that is already assigned only when
    that color is the primary sentinel: with the draws [0xaaaaaa],
    [0xaaaaaa] the variables [@link-color] and [@text-color] both get
    [#aaaaaa]; with the draw [0x123456] and no primary variable before it,
    [@link-color] gets the sentinel [#123456], and a primary variable that
    comes after it gets the same color. *)
Theorem assignMarkers_collisions :
  (λ r, (randomColors r.1 !! "@link-color", randomColors r.1 !! "@text-color"))
    <$> assignMarkers ["@link-color"; "@text-color"] noMarkers [0xaaaaaa; 0xaaaaaa]%N
  = Some (Some "#aaaaaa", Some "#aaaaaa")
  ∧ (λ r, (randomColors r.1 !! "@link-color", randomColors r.1 !! "@primary-color"))
      <$> assignMarkers ["@link-color"; "@primary-color"] noMarkers [0x123456; 7]%N
    = Some (Some PRIMARY_RANDOM_COLOR, Some PRIMARY_RANDOM_COLOR).
Proof.
  split; vm_compute; reflexivity.
Qed.

(** *** Shade rules *)

Example shadeKeys_nine :
  shadeKeys = [1; 2; 3; 4; 5; 7; 8; 9; 10]%nat ∧ length shadeKeys = 9%nat.
Proof. split; reflexivity. Qed.

(** For the one-digit keys the rule asks for the shade of that index. *)
Example getShade_one_digit :
  Forall (λ key, getShade (shadeName "@primary-color" key)
                 = Some (paletteExpr "primary-color" (decimal key)))
         [1; 2; 3; 4; 5; 7; 8; 9]%nat.
Proof. repeat constructor. Qed.

(** C5 fails at the index 10: the pattern of [getShade] captures one digit,
    so [@primary-10] (and [@link-color-10]) yield the expression for the
    shade 1, the same as [@primary-1]; the rules for 10 and for 1 ask the
    compiler for the same shade. *)
Theorem getShade_index_ten :
  shadeName "@primary-color" 10 = "@primary-10"
  ∧ getShade "@primary-10" = Some (paletteExpr "primary-color" "1")
  ∧ getShade (shadeName "@primary-color" 10) = getShade (shadeName "@primary-color" 1)
  ∧ getShade (shadeName "@link-color" 10) = Some (paletteExpr "link-color" "1")
  ∧ shadeRule "@primary-color" EmptyString 10
    = Ok (".primary-10 { color: " +:+ paletteExpr "primary-color" "1" +:+ "; }"
          +:+ LF +:+ " ").
Proof.
  repeat split; vm_compute; reflexivity.
Qed.

(** *** The orchestrator and its cache *)

Lemma quiet_ret {A : Type} (a : A) : quiet (mret a).
Proof.
  intros st r st' [= <- <-]. repeat split. exists []. rewrite app_nil_r. auto.
Qed.

Lemma quiet_throw {A : Type} (e : error) : quiet (@throw A e).
Proof.
  intros st r st' [= <- <-]. repeat split. exists []. rewrite app_nil_r. auto.
Qed.

Lemma quiet_bind {A B : Type} (c : M A) (f : A → M B) :
  quiet c → (∀ a, quiet (f a)) → quiet (c ≫= f).
Proof.
  intros Hc Hf st r st'. unfold mbind, M_bind.
  destruct (c st) as [[[a|e] st1]|] eqn:Hrun; [| |discriminate].
  - intros Hrest.
    destruct (Hc _ _ _ Hrun) as (H1 & H2 & evs1 & H3 & H4).
    destruct (Hf a _ _ _ Hrest) as (H1' & H2' & evs2 & H3' & H4').
    split; [congruence|]. split; [congruence|].
    exists (evs1 ++ evs2)%list. split.
    + rewrite H3', H3, app_assoc. reflexivity.
    + apply Forall_app. auto.
  - intros [= <- <-]. exact (Hc _ _ _ Hrun).
Qed.

Lemma quiet_call {A : Type} (ev : event) (r : result A) :
  io_event ev → quiet (call ev r).
Proof.
  intros Hev st r' st'. unfold call, mbind, M_bind, emit, lift. simpl.
  intros [= <- <-]. simpl. repeat split. exists [ev]. auto.
Qed.

Lemma quiet_promiseAll {A : Type} (calls : list (event * result A)) :
  Forall io_event (calls.*1) → quiet (promiseAll calls).
Proof.
  intros Hio st r st' [= <- <-]. simpl. repeat split. eauto.
Qed.

Lemma readStyles_quiet w o : quiet (readStyles w o).
Proof.
  unfold readStyles.
  apply quiet_bind.
  { apply quiet_promiseAll. rewrite <- list_fmap_compose.
    apply Forall_fmap, Forall_true. intros s. exact I. }
  intros pss. apply quiet_bind.
  - destruct pss; [apply quiet_throw | apply quiet_ret].
  - intros styles. apply quiet_bind; [|intros; apply quiet_ret].
    apply quiet_promiseAll. rewrite <- list_fmap_compose.
    apply Forall_fmap, Forall_true. intros f. exact I.
Qed.

Section Cache.

Variable sha1 : string → string.

(** What a regeneration does to the process: the hash is the new one at
    once; the bundler is the first collaborator called; the stylesheet cache
    changes only when the run succeeds. *)
Lemma regenerate_spec w o antdPath nodeModulesPath hashCode st r st' :
  regenerate w o antdPath nodeModulesPath hashCode st = Some (r, st') →
  hashCache st' = hashCode
  ∧ (∃ p evs, trace st' = (trace st ++ Bundled p :: evs)%list)
  ∧ match r with
    | Ok css => cssCache st' = css ∧ last (trace st') = Some Compiled
    | Throw _ => cssCache st' = cssCache st
    end.
Proof.
  unfold regenerate, mbind, M_bind, call, emit, lift, setHashCache, setCssCache,
    hang, mret, M_ret.
  simpl.
  destruct (combineLess w _ nodeModulesPath) as [varFileContent|e].
  2:{ intros [= <- <-]. simpl. split; [reflexivity|].
      split; [eexists _, []; reflexivity | reflexivity]. }
  destruct (getLessVars (readFile w) _) as [lessVars|e].
  2:{ intros [= <- <-]. simpl. split; [reflexivity|].
      split; [eexists _, [_]; rewrite <- app_assoc; reflexivity | reflexivity]. }
  destruct (assignMarkers _ noMarkers (draws w)) as [[m rest]|]; [|discriminate].
  destruct (foldM _ _ _) as [[css varsContent]|e].
  2:{ intros [= <- <-]. simpl. split; [reflexivity|].
      split; [eexists _, [_]; rewrite <- app_assoc; reflexivity | reflexivity]. }
  destruct (compileAndAssemble w _) as [css'|e]; intros [= <- <-]; simpl.
  - split; [reflexivity|]. split.
    + eexists _, [_; _]. rewrite <- !app_assoc. reflexivity.
    + split; [reflexivity | apply last_snoc].
  - split; [reflexivity|]. split; [|reflexivity].
    eexists _, [_; _]. rewrite <- !app_assoc. reflexivity.
Qed.

Lemma generateThemeBody_unfold w o st :
  generateThemeBody sha1 w o st
  = match readStyles w o st with
    | Some (Ok content, st1) =>
        if String.eqb (sha1 content) (hashCache st1)
        then Some (Ok (cssCache st1), st1)
        else regenerate w o (antdPathOf w o) (nodeModulesPathOf w o)
                        (sha1 content) st1
    | Some (Throw e, st1) => Some (Throw e, st1)
    | None => None
    end.
Proof.
  unfold generateThemeBody, mbind, M_bind, getProcess.
  destruct (readStyles w o st) as [[[content|e] st1]|]; try reflexivity.
  destruct (String.eqb (sha1 content) (hashCache st1)); reflexivity.
Qed.


(** The part of the fail-soft policy that holds: a run that throws returns
    the empty string, logs the error last, and leaves [cssCache] as it was;
    [hashCache] is the old one or the digest of the content just read. *)
Lemma failed_run_keeps_cssCache w o st e st1 :
  generateThemeBody sha1 w o st = Some (Throw e, st1) →
  ∃ st', generateTheme sha1 w o st = Some (EmptyString, st')
         ∧ last (trace st') = Some (Logged e)
         ∧ cssCache st' = cssCache st
         ∧ (hashCache st' = hashCache st
            ∨ ∃ content sta, readStyles w o st = Some (Ok content, sta)
                             ∧ hashCache st' = sha1 content).
Proof.
  intros Hrun. unfold generateTheme. rewrite Hrun. simpl.
  eexists. split; [reflexivity|]. simpl. split; [apply last_snoc|].
  rewrite generateThemeBody_unfold in Hrun.
  destruct (readStyles w o st) as [[[content|e'] sta]|] eqn:Hread; [| |discriminate].
  - destruct (readStyles_quiet w o _ _ _ Hread) as (Hh & Hc & _).
    destruct (String.eqb (sha1 content) (hashCache sta)); [discriminate|].
    apply regenerate_spec in Hrun as (Hh' & _ & Hc').
    split; [congruence|]. right. eauto.
  - injection Hrun as <- <-.
    destruct (readStyles_quiet w o _ _ _ Hread) as (Hh & Hc & _). auto.
Qed.

(** C4 fails for the stored hash. When the consumer stylesheets are read,
    their digest differs from [hashCache], and a later stage throws - here
    the bundling of the variables file - the call logs the error and
    returns the empty string with [cssCache] untouched, but [hashCache] has
    already been overwritten with the new digest. *)
Theorem failed_run_moves_hashCache w o st sta content e :
  readStyles w o st = Some (Ok content, sta) →
  sha1 content ≠ hashCache st →
  (∀ file nodeModulesPath, combineLess w file nodeModulesPath = Throw e) →
  ∃ st', generateTheme sha1 w o st = Some (EmptyString, st')
         ∧ last (trace st') = Some (Logged e)
         ∧ cssCache st' = cssCache st
         ∧ hashCache st' = sha1 content
         ∧ hashCache st' ≠ hashCache st.
Proof.
  intros Hread Hnew Hfail.
  destruct (readStyles_quiet w o _ _ _ Hread) as (Hh & Hc & _).
  assert (Hrun : generateThemeBody sha1 w o st
                 = Some (Throw e,
                         {| hashCache := sha1 content; cssCache := cssCache sta;
                            trace := trace sta
                              ++ [Bundled
                                    match varFile o with
                                    | Some f =>
                                        if truthy f then f
                                        else path_join w (antdPathOf w o)
                                               "./style/themes/default.less"
                                    | None => path_join w (antdPathOf w o)
                                                "./style/themes/default.less"
                                    end] |})).
  { rewrite generateThemeBody_unfold, Hread.
    destruct (String.eqb_spec (sha1 content) (hashCache sta)) as [Heq|_];
      [congruence|].
    unfold regenerate, mbind, M_bind, call, emit, lift, setHashCache. simpl.
    rewrite Hfail. reflexivity. }
  unfold generateTheme. rewrite Hrun. simpl.
  eexists. split; [reflexivity|]. simpl.
  split; [apply last_snoc|]. split; [exact Hc|]. split; [reflexivity | exact Hnew].
Qed.

End Cache.

Lemma failed_run_moves_hashCache_witness :
  ∃ st', generateTheme toyDigest (brokenWorld ".a { color: red; }") exampleOptions fresh
         = Some (EmptyString, st')
         ∧ last (trace st') = Some (Logged "ENOENT")
         ∧ cssCache st' = cssCache fresh
         ∧ hashCache st' = toyDigest ".a { color: red; }"
         ∧ hashCache st' ≠ hashCache fresh.
Proof.
  eapply (failed_run_moves_hashCache toyDigest (brokenWorld ".a { color: red; }")
            exampleOptions fresh _ ".a { color: red; }" "ENOENT").
  - vm_compute. reflexivity.
  - vm_compute. discriminate.
  - reflexivity.
Defined.


Section CacheReuse.

Variable sha1 : string → string.


End CacheReuse.


Example second_call_hit :
  generateTheme toyDigest (workingWorld sheetA) exampleOptions afterFirstCall
  = Some (String.concat LF ["@primary-color: #123456;"; EmptyString],
          {| hashCache := toyDigest sheetA;
             cssCache := String.concat LF ["@primary-color: #123456;"; EmptyString];
             trace := (trace afterFirstCall
                       ++ [Globbed "src/./**/*.less"; Read "src/app.less"])%list |}).
Proof. vm_compute. reflexivity. Qed.

(** ** Beyond the specification: the rest of the generator *)

Import Props Stages.

(** *** More on the matcher *)

Lemma append_cons a p s : String a p +:+ s = String a (p +:+ s).
Proof. reflexivity. Qed.

Lemma append_assoc p q s : p +:+ (q +:+ s) = (p +:+ q) +:+ s.
Proof.
  induction p as [|a p IH]; [reflexivity|].
  rewrite !append_cons, IH. reflexivity.
Qed.

Lemma length_append p s :
  String.length (p +:+ s) = (String.length p + String.length s)%nat.
Proof.
  induction p as [|a p IH]; [reflexivity|].
  rewrite append_cons. simpl. rewrite IH. reflexivity.
Qed.

Lemma suffix_of_refl s : suffix_of s s.
Proof. exists EmptyString. reflexivity. Qed.

Lemma suffix_of_trans s1 s2 s3 : suffix_of s1 s2 → suffix_of s2 s3 → suffix_of s1 s3.
Proof.
  intros [p1 ->] [p2 ->]. exists (p2 +:+ p1). apply append_assoc.
Qed.

Lemma suffix_of_tail a s : suffix_of s (String a s).
Proof. exists (String a EmptyString). reflexivity. Qed.

Lemma suffix_of_length s' s : suffix_of s' s → (String.length s' ≤ String.length s)%nat.
Proof.
  intros [pre ->]. rewrite length_append. lia.
Qed.


Lemma rep_loop_answers step (Hstep : answers step) k fuel :
  ∀ lo hi s c x,
    rep_loop step k fuel lo hi s c = Some x →
    ∃ s' c', suffix_of s' s ∧ k s' c' = Some x.
Proof.
  induction fuel as [|fuel IH]; intros lo hi s c x Hrun; [discriminate|].
  cbn [rep_loop] in Hrun.
  assert (Hhere : k s c = Some x → ∃ s' c', suffix_of s' s ∧ k s' c' = Some x)
    by (intros Hk; exists s, c; split; [apply suffix_of_refl | exact Hk]).
  assert (Hloop :
    match
      step s c
        (λ s' c', if (lo =? 0)%nat && (String.length s' =? String.length s)%nat
                  then None
                  else rep_loop step k fuel (pred lo) (pred <$> hi) s' c')
    with
    | Some x => Some x
    | None => if (lo =? 0)%nat then k s c else None
    end = Some x → ∃ s' c', suffix_of s' s ∧ k s' c' = Some x).
  { destruct (step s c _) as [y|] eqn:Hstep1.
    - intros [= ->]. apply Hstep in Hstep1 as (s1 & c1 & Hsuf & Hagain).
      destruct ((lo =? 0)%nat && (String.length s1 =? String.length s)%nat);
        [discriminate|].
      apply IH in Hagain as (s2 & c2 & Hsuf2 & Hk).
      exists s2, c2. split; [eapply suffix_of_trans; eassumption | exact Hk].
    - destruct (lo =? 0)%nat; [exact Hhere | discriminate]. }
  destruct hi as [[|n]|]; auto.
Qed.

Lemma rmatch_answers r total : answers (λ s c k, rmatch r total s c k).
Proof.
  induction r as [|p|r1 IH1 r2 IH2|r1 IH1 r2 IH2|lo hi r1 IH|i r1 IH|r1 IH| |];
    intros s c k x Hrun; cbn [rmatch] in Hrun.
  - exists s, c. split; [apply suffix_of_refl | exact Hrun].
  - destruct s as [|a s]; [discriminate|]. destruct (p a); [|discriminate].
    exists s, c. split; [apply suffix_of_tail | exact Hrun].
  - apply IH1 in Hrun as (s1 & c1 & Hsuf1 & Hrun).
    apply IH2 in Hrun as (s2 & c2 & Hsuf2 & Hrun).
    exists s2, c2. split; [eapply suffix_of_trans; eassumption | exact Hrun].
  - destruct (rmatch r1 total s c k) as [y|] eqn:H1.
    + injection Hrun as ->. exact (IH1 _ _ _ _ H1).
    + exact (IH2 _ _ _ _ Hrun).
  - eapply rep_loop_answers; [|exact Hrun].
    intros s1 c1 k1 x1 H1. exact (IH _ _ _ _ H1).
  - apply IH in Hrun as (s1 & c1 & Hsuf & Hrun). eauto.
  - destruct (rmatch r1 total s c (λ s' c', Some (s', c'))) as [[? c']|];
      [|discriminate].
    exists s, c'. split; [apply suffix_of_refl | exact Hrun].
  - destruct (String.length s =? total)%nat; [|discriminate].
    exists s, c. split; [apply suffix_of_refl | exact Hrun].
  - destruct s; [|discriminate].
    exists EmptyString, c. split; [apply suffix_of_refl | exact Hrun].
Qed.

Lemma all_chars_suffix p s1 s :
  suffix_of s1 s → all_chars p s = true → all_chars p s1 = true.
Proof.
  intros [pre ->]. induction pre as [|a pre IH]; [auto|].
  rewrite append_cons. cbn [all_chars]. intros [_ H]%andb_true_iff. auto.
Qed.

Lemma rmatch_Group i r total s c k :
  rmatch (Group i r) total s c k
  = rmatch r total s c
      (λ s' c', k s' ((i, take (String.length s - String.length s') s) :: c')).
Proof. reflexivity. Qed.

(** *** [randomColor] *)

Lemma hex_digit_is_hex n : is_hex (hex_digit n) = true.
Proof.
  destruct n as [|p]; [reflexivity|].
  destruct p as [[[[p|p|]|[p|p|]|]|[[p|p|]|[p|p|]|]|]
                |[[[p|p|]|[p|p|]|]|[[p|p|]|[p|p|]|]|]|]; reflexivity.
Qed.


Lemma hex_fixed_length k : ∀ n acc,
  String.length (hex_fixed k n acc) = (k + String.length acc)%nat.
Proof.
  induction k as [|k IH]; intros n acc; simpl; [reflexivity|].
  rewrite IH. simpl. lia.
Qed.

Lemma hex_fixed_all_hex k : ∀ n acc,
  all_chars is_hex acc = true → all_chars is_hex (hex_fixed k n acc) = true.
Proof.
  induction k as [|k IH]; intros n acc Hacc; simpl; [exact Hacc|].
  apply IH. simpl. rewrite hex_digit_is_hex. exact Hacc.
Qed.

(** The most significant digit comes first. *)
Lemma hex_fixed_head k : ∀ n acc,
  hex_fixed (S k) n acc
  = String (hex_digit ((n / 16 ^ N.of_nat k) mod 16)%N) (hex_fixed k n acc).
Proof.
  induction k as [|k IH]; intros n acc.
  - simpl. rewrite N.div_1_r. reflexivity.
  - change (hex_fixed (S (S k)) n acc)
      with (hex_fixed (S k) (n / 16)%N (String (hex_digit (n mod 16)%N) acc)).
    rewrite IH. f_equal. f_equal.
    rewrite Nat2N.inj_succ, N.pow_succ_r', N.Div0.div_div. reflexivity.
Qed.

Lemma take_all s n : (String.length s ≤ n)%nat → take n s = s.
Proof.
  revert n. induction s as [|a s IH]; intros [|n] Hn; simpl in *;
    try reflexivity; try lia.
  rewrite IH by lia. reflexivity.
Qed.

(** [randomColor] is the sharp sign and the six low hexadecimal digits of
    the draw. *)
Lemma randomColor_digits d :
  randomColor d = String "#" (hex_fixed 6 (0x1000000 + d)%N EmptyString).
Proof.
  unfold randomColor. rewrite (hex_fixed_head 6).
  change (take 7 (String ?a ?s)) with (String a (take 6 s)).
  rewrite take_all by (rewrite hex_fixed_length; simpl; lia).
  reflexivity.
Qed.


Lemma hex_not_x a : is_hex a = true → is_char "x" a = false ∧ is_char "X" a = false.
Proof.
  destruct a as [[] [] [] [] [] [] [] []]; vm_compute; intros; split; congruence.
Qed.






Lemma all_chars_impl (p q : ascii → bool) s :
  (∀ a, p a = true → q a = true) → all_chars p s = true → all_chars q s = true.
Proof.
  intros Hpq. induction s as [|a s IH]; simpl; [reflexivity|].
  intros [Ha Hs]%andb_true_iff. rewrite (Hpq a Ha), (IH Hs). reflexivity.
Qed.

Lemma no_p_no_px s :
  all_chars (λ a, negb (is_char "p" a)) s = true → includes "px" s = false.
Proof.
  induction s as [|a s IH]; [reflexivity|].
  cbn [all_chars includes startsWith].
  intros [Ha Hs]%andb_true_iff. apply negb_true_iff in Ha.
  rewrite Ha, (IH Hs). reflexivity.
Qed.

Lemma hex_not_p a : is_hex a = true → negb (is_char "p" a) = true.
Proof.
  destruct a as [[] [] [] [] [] [] [] []]; vm_compute; congruence.
Qed.

Lemma randomColor_valid (d : N) (extra : list regex) :
  isValidColor (Some (randomColor d)) extra = true.
Proof.
  rewrite randomColor_digits.
  set (digits := hex_fixed 6 (0x1000000 + d)%N EmptyString).
  assert (Hall : all_chars is_hex digits = true)
    by (apply hex_fixed_all_hex; reflexivity).
  assert (Hlen : String.length digits = 6%nat)
    by (unfold digits; rewrite hex_fixed_length; reflexivity).
  assert (Hstart : starts_hex digits = true).
  { destruct digits as [|a t]; [discriminate|].
    simpl in Hall. apply andb_true_iff in Hall as [Ha _]. exact Ha. }
  unfold isValidColor. cbn [truthy andb negb orb].
  destruct (includes "rgb" (String "#" digits)); [reflexivity|].
  rewrite matches_px.
  rewrite no_p_no_px.
  2:{ cbn [all_chars]. apply andb_true_iff. split; [reflexivity|].
      apply (all_chars_impl is_hex); [exact hex_not_p | exact Hall]. }
  destruct (matches_g re_palette_fade (String "#" digits)); [reflexivity|].
  change (charAt0 (String "#" digits)) with "#".
  change (substring_from 1 (String "#" digits)) with digits.
  cbn [String.eqb Ascii.eqb Bool.eqb].
  rewrite Hlen. rewrite parseInt16_number; [reflexivity | exact Hstart|].
  destruct digits as [|a [|b t]]; cbn [startsWith]; try discriminate.
  simpl in Hall. apply andb_true_iff in Hall as [_ Hall].
  apply andb_true_iff in Hall as [Hb _].
  destruct (hex_not_x b Hb) as [-> ->]. rewrite !andb_false_r. discriminate.
Qed.

(** X2: every color [randomColor] produces is accepted by the classifier,
    whatever the draw and the extra patterns. *)
Theorem randomColor_is_valid_color (d : N) (extra : list regex) :
  isValidColor (Some (randomColor d)) extra = true.
Proof. apply randomColor_valid. Qed.



(** *** More on the classifier *)

(** X4: a value that has [px] in it and no [rgb] is never a color, whatever
    the extra patterns are: the test for [px] comes before them. *)
Theorem isValidColor_px_veto (color : string) (extra : list regex) :
  includes "rgb" color = false → includes "px" color = true →
  isValidColor (Some color) extra = false.
Proof.
  intros Hrgb Hpx. unfold isValidColor.
  rewrite Hrgb, andb_false_r, matches_px, Hpx, orb_true_r. reflexivity.
Qed.

Lemma isValidColor_px_veto_witness :
  isValidColor (Some "1px solid fade(@black, 10%)") [lit "fade"] = false.
Proof.
  apply (isValidColor_px_veto "1px solid fade(@black, 10%)"); reflexivity.
Defined.

Lemma fold_test_true (color : string) (l : list regex) :
  fold_left (λ prev regex, prev || test regex color) l true = true.
Proof. induction l as [|r l IH]; [reflexivity | exact IH]. Qed.

Lemma fold_test_app (color : string) (l more : list regex) :
  fold_left (λ prev regex, prev || test regex color) l false = true →
  fold_left (λ prev regex, prev || test regex color) (l ++ more)%list false = true.
Proof.
  intros H. rewrite fold_left_app, H. apply fold_test_true.
Qed.

(** X5: more extra patterns never turn a color into a non-color. *)
Theorem isValidColor_more_patterns (color : option string) (extra more : list regex) :
  isValidColor color extra = true →
  isValidColor color (extra ++ more)%list = true.
Proof.
  destruct color as [color|]; [|discriminate]. unfold isValidColor.
  destruct (truthy color && includes "rgb" color); [reflexivity|].
  destruct (negb (truthy color) || matches_g re_px color); [discriminate|].
  destruct (matches_g re_palette_fade color); [reflexivity|].
  destruct (String.eqb (charAt0 color) "#"); [tauto|].
  destruct (test re_functional color); [reflexivity|].
  destruct extra as [|r extra]; [discriminate|].
  intros H. cbn [length Nat.ltb Nat.leb] in *.
  rewrite <- app_comm_cons. cbn [length Nat.ltb Nat.leb].
  rewrite app_comm_cons. apply fold_test_app. exact H.
Qed.

Lemma isValidColor_more_patterns_witness :
  isValidColor (Some "tint(@blue-6, 20%)")
    ([Seq (lit "tint") (Group 1 (star dot))] ++ [lit "shade"])%list = true.
Proof.
  apply (isValidColor_more_patterns (Some "tint(@blue-6, 20%)")).
  vm_compute. reflexivity.
Defined.

(** *** More on the colors map *)







(** X7: a text without a quote or a hyphen contributes nothing to the
    colors map: as a line it leaves the map as it is, and as a whole
    variables file it yields the empty map, whatever it declares. *)
Theorem generateColorMap_unmarked (text : string) (extra : list regex) :
  unmarked text = true →
  (∀ prev, colorMapStep extra prev text = prev)
  ∧ generateColorMap text extra = ∅.
Proof.
  intros Htext. split.
  - intros prev. unfold colorMapStep, exec.
    rewrite (color_line_needs_mark _ _ Htext). reflexivity.
  - apply generateColorMap_needs_mark, Htext.
Qed.

Lemma generateColorMap_unmarked_witness :
  (∀ prev, colorMapStep [] prev "@heading: #fa8c16;" = prev)
  ∧ generateColorMap "@heading: #fa8c16;" [] = ∅.
Proof.
  apply (generateColorMap_unmarked "@heading: #fa8c16;" []). reflexivity.
Defined.

(** *** More on alias resolution *)



(** *** More on the raw pass *)

Lemma less_var_needs_at total s :
  all_chars (λ a, negb (is_char "@" a)) s = true → search re_less_var total s = None.
Proof.
  induction s as [|a s IH]; intros Hs.
  - reflexivity.
  - cbn [all_chars] in Hs. apply andb_true_iff in Hs as [Ha Hs].
    apply negb_true_iff in Ha.
    cbn [search]. unfold match_here, re_less_var.
    rewrite rmatch_Seq. unfold chr. rewrite rmatch_Char, Ha. apply IH, Hs.
Qed.

Lemma less_var_needs_colon total s :
  all_chars (λ a, negb (is_char ":" a)) s = true → search re_less_var total s = None.
Proof.
  induction s as [|a s IH]; intros Hs.
  - reflexivity.
  - cbn [search].
    assert (Hhere : match_here re_less_var total (String a s) = None).
    { unfold match_here, re_less_var. cbn [seq].
      destruct (rmatch _ total (String a s) [] (λ s' c', Some (s', c')))
        as [x|] eqn:H; [|reflexivity].
      rewrite rmatch_Seq in H. unfold chr in H. rewrite rmatch_Char in H.
      destruct (is_char "@" a); [|discriminate].
      rewrite rmatch_Group, rmatch_Seq in H.
      apply (rmatch_answers _ total) in H as (s1 & c1 & Hsuf & H). cbv beta in H.
      rewrite rmatch_Seq in H. destruct s1 as [|b s1]; [discriminate|].
      rewrite rmatch_Char in H.
      assert (Hs1 : all_chars (λ a, negb (is_char ":" a)) (String b s1) = true).
      { apply (all_chars_suffix _ _ (String a s)); [|exact Hs].
        eapply suffix_of_trans; [exact Hsuf | apply suffix_of_tail]. }
      cbn [all_chars] in Hs1. apply andb_true_iff in Hs1 as [Hb _].
      apply negb_true_iff in Hb. rewrite Hb in H. discriminate. }
    rewrite Hhere. apply IH.
    cbn [all_chars] in Hs. apply andb_true_iff in Hs as [_ Hs]. exact Hs.
Qed.

(** X9: a declaration needs its at-sign and its colon: a sheet that has no
    at-sign, or no colon, gives the empty mapping, whatever else it
    holds. *)
Theorem getLessVars_needs_declaration (readFile : string → result string)
  (filtPath sheet : string) :
  readFile filtPath = Ok sheet →
  all_chars (λ a, negb (is_char "@" a)) sheet = true
  ∨ all_chars (λ a, negb (is_char ":" a)) sheet = true →
  getLessVars readFile filtPath = Ok ∅.
Proof.
  unfold getLessVars. intros -> Hsheet. f_equal. unfold lessVarsOfSheet, match_all.
  pose proof (match_all_nonempty_search re_less_var (String.length sheet) sheet)
    as [_ Hnone].
  rewrite Hnone; [reflexivity|].
  destruct Hsheet as [Hat|Hcolon];
    [apply less_var_needs_at, Hat | apply less_var_needs_colon, Hcolon].
Qed.

Lemma getLessVars_needs_declaration_witness :
  getLessVars (λ _, Ok "@import 'theme';") "variables.less" = Ok ∅.
Proof.
  apply (getLessVars_needs_declaration (λ _, Ok "@import 'theme';")
           "variables.less" "@import 'theme';").
  - reflexivity.
  - right. reflexivity.
Defined.

(** *** More on the Declaration Pruner *)

(** The children [rule.walkDecls] leaves, and the flag, whatever the values. *)
Lemma walkDecls_spec nodes :
  ∀ removeRule,
    walkDecls nodes removeRule
    = (List.filter
         (λ i, match i with
               | Decl prop value => keyworded prop && negb (matches_g re_url value)
               | RuleComment _ => true
               end) nodes,
       removeRule && forallb (λ i, negb (keyworded_decl i)) nodes).
Proof.
  induction nodes as [|[prop value|text] rest IH]; intros b; simpl.
  - rewrite andb_true_r. reflexivity.
  - rewrite visitDecl_keyworded.
    destruct (keyworded prop) eqn:Hkw; simpl.
    + rewrite (IH false). simpl. rewrite andb_false_r.
      destruct (matches_g re_url value); reflexivity.
    + rewrite (IH b). reflexivity.
  - rewrite (IH b). reflexivity.
Qed.

Lemma pruneRule_spec selector nodes :
  pruneRule selector nodes
  = if startsWith ".main-color .palatte-" selector
       || forallb (λ i, negb (keyworded_decl i)) nodes
    then []
    else [Rule selector
            (List.filter
               (λ i, match i with
                     | Decl prop value =>
                         keyworded prop && negb (matches_g re_url value)
                     | RuleComment _ => false
                     end) nodes)].
Proof.
  unfold pruneRule, cleanRule.
  destruct (startsWith ".main-color .palatte-" selector); [reflexivity|].
  rewrite walkDecls_spec. cbv beta iota zeta. rewrite andb_true_l, orb_false_l.
  destruct (forallb (λ i, negb (keyworded_decl i)) nodes); [reflexivity|].
  f_equal. f_equal.
  induction nodes as [|[prop value|text] rest IH]; simpl; [reflexivity| |exact IH].
  destruct (keyworded prop && negb (matches_g re_url value)); simpl;
    rewrite IH; reflexivity.
Qed.

Lemma reducePlugin_elem n css :
  n ∈ reducePlugin css →
  ∃ selector nodes0, Rule selector nodes0 ∈ css ∧ n ∈ pruneRule selector nodes0.
Proof.
  induction css as [|n0 css IH]; [intros H; inversion H|].
  rewrite reducePlugin_cons. intros [H|H]%elem_of_app.
  - destruct n0 as [selector nodes0| |]; try (inversion H; fail).
    exists selector, nodes0. split; [left | exact H].
  - destruct (IH H) as (s0 & n1 & Hin & Hrest).
    exists s0, n1. split; [right; exact Hin | exact Hrest].
Qed.

(** X10: what [reducePlugin] returns holds rules only - no at-rule, no
    comment - and each rule comes from a rule of the input with the same
    selector, which is not a palette helper; its children are declarations
    of that rule with a color-bearing property name and no [url(...)]
    value, and the input rule had a declaration with such a name. *)
Theorem reducePlugin_sound (css : list node) (n : node) :
  n ∈ reducePlugin css →
  ∃ selector nodes nodes0,
    n = Rule selector nodes
    ∧ Rule selector nodes0 ∈ css
    ∧ startsWith ".main-color .palatte-" selector = false
    ∧ (∃ prop value, Decl prop value ∈ nodes0 ∧ keyworded prop = true)
    ∧ ∀ i, i ∈ nodes → i ∈ nodes0 ∧ colorDecl i.
Proof.
  intros Hn. apply reducePlugin_elem in Hn as (selector & nodes0 & Hin & Hn).
  rewrite pruneRule_spec in Hn.
  destruct (startsWith ".main-color .palatte-" selector) eqn:Hsel;
    [inversion Hn|].
  destruct (forallb (λ i, negb (keyworded_decl i)) nodes0) eqn:Hall;
    [inversion Hn|].
  cbn [orb] in Hn. apply list_elem_of_singleton in Hn. subst n.
  eexists selector, _, nodes0. split; [reflexivity|]. split; [exact Hin|].
  split; [exact Hsel|]. split.
  - apply not_true_iff_false in Hall.
    assert (∃ i, i ∈ nodes0 ∧ keyworded_decl i = true) as (i & Hi & Hkw).
    { clear -Hall. induction nodes0 as [|i l IH]; [exfalso; apply Hall; reflexivity|].
      destruct (keyworded_decl i) eqn:Hk.
      - exists i. split; [left | exact Hk].
      - destruct IH as (j & Hj & Hjk).
        + intros Hl. apply Hall. simpl. rewrite Hk, Hl. reflexivity.
        + exists j. split; [right; exact Hj | exact Hjk]. }
    destruct i as [prop value|text]; [|discriminate]. eauto.
  - intros i Hi. apply list_elem_of_In, filter_In in Hi as [Hi Hkeep].
    split; [apply list_elem_of_In, Hi|].
    destruct i as [prop value|text]; [|discriminate].
    apply andb_true_iff in Hkeep as [Hkw Hurl]. apply negb_true_iff in Hurl.
    exists prop, value. auto.
Qed.

Lemma reducePlugin_sound_witness :
  ∃ selector nodes nodes0,
    Rule ".body" [Decl "color" "#000"] = Rule selector nodes
    ∧ Rule selector nodes0 ∈ [Rule ".body" [Decl "color" "#000"; Decl "padding" "0"]]
    ∧ startsWith ".main-color .palatte-" selector = false
    ∧ (∃ prop value, Decl prop value ∈ nodes0 ∧ keyworded prop = true)
    ∧ ∀ i, i ∈ nodes → i ∈ nodes0 ∧ colorDecl i.
Proof.
  apply (reducePlugin_sound
           [Rule ".body" [Decl "color" "#000"; Decl "padding" "0"]]).
  vm_compute. left.
Defined.

(** X11: a declaration with a color-bearing property name and no [url(...)]
    value, in a rule that is not a palette helper and not under an at-rule,
    is never lost: the output has a rule with the same selector that holds
    it. *)
Theorem reducePlugin_keeps_color_declarations (css : list node)
  (selector : string) (nodes0 : list item) (prop value : string) :
  Rule selector nodes0 ∈ css →
  startsWith ".main-color .palatte-" selector = false →
  Decl prop value ∈ nodes0 →
  keyworded prop = true →
  matches_g re_url value = false →
  ∃ nodes, Rule selector nodes ∈ reducePlugin css ∧ Decl prop value ∈ nodes.
Proof.
  intros Hin Hsel Hdecl Hkw Hurl.
  assert (Hall : forallb (λ i, negb (keyworded_decl i)) nodes0 = false).
  { apply not_true_iff_false. intros Hall. rewrite forallb_forall in Hall.
    apply list_elem_of_In, Hall in Hdecl. simpl in Hdecl.
    rewrite Hkw in Hdecl. discriminate. }
  eexists. split.
  - induction css as [|n css IH]; [inversion Hin|].
    rewrite reducePlugin_cons. apply elem_of_app.
    apply elem_of_cons in Hin as [<-|Hin].
    + left. rewrite pruneRule_spec, Hsel, Hall. left.
    + right. exact (IH Hin).
  - apply list_elem_of_In, filter_In. split; [apply list_elem_of_In, Hdecl|].
    rewrite Hkw, Hurl. reflexivity.
Qed.

Lemma reducePlugin_keeps_color_declarations_witness :
  ∃ nodes,
    Rule ".body" nodes
      ∈ reducePlugin [Comment "x"; Rule ".body" [Decl "padding" "0"; Decl "color" "#000"]]
    ∧ Decl "color" "#000" ∈ nodes.
Proof.
  apply (reducePlugin_keeps_color_declarations
           [Comment "x"; Rule ".body" [Decl "padding" "0"; Decl "color" "#000"]]
           ".body" [Decl "padding" "0"; Decl "color" "#000"] "color" "#000").
  - right. left.
  - reflexivity.
  - right. left.
  - reflexivity.
  - reflexivity.
Defined.

Lemma reducePlugin_urlFree css : urlFree (reducePlugin css).
Proof.
  intros selector nodes Hin prop value Hd.
  apply reducePlugin_elem in Hin as (s0 & nodes0 & _ & Hin).
  rewrite pruneRule_spec in Hin.
  destruct (startsWith ".main-color .palatte-" s0 || _); [inversion Hin|].
  apply list_elem_of_singleton in Hin. injection Hin as -> ->.
  apply list_elem_of_In, filter_In in Hd as [_ Hkeep].
  apply andb_true_iff in Hkeep as [_ Hurl]. apply negb_true_iff in Hurl.
  exact Hurl.
Qed.

(** X12: the transform settles after two runs, on every stylesheet: a third
    run changes nothing. *)
Theorem reducePlugin_settles (css : list node) :
  reducePlugin (reducePlugin (reducePlugin css)) = reducePlugin (reducePlugin css).
Proof.
  apply reducePlugin_idempotent_urlFree, reducePlugin_urlFree.
Qed.

(** X13: on a stylesheet without a [url(...)] value in the declarations of
    its rules, one run is enough: a second run changes nothing. *)
Theorem reducePlugin_idempotent_without_url (css : list node) :
  urlFree css → reducePlugin (reducePlugin css) = reducePlugin css.
Proof.
  apply reducePlugin_idempotent_urlFree.
Qed.

Lemma reducePlugin_idempotent_without_url_witness :
  reducePlugin
    (reducePlugin [Rule ".body" [Decl "color" "#000"; Decl "padding" "0"]])
  = reducePlugin [Rule ".body" [Decl "color" "#000"; Decl "padding" "0"]].
Proof.
  apply (reducePlugin_idempotent_without_url
           [Rule ".body" [Decl "color" "#000"; Decl "padding" "0"]]).
  intros selector nodes Hin prop value Hd.
  apply list_elem_of_singleton in Hin. injection Hin as -> ->.
  apply elem_of_cons in Hd as [[= -> ->]|Hd]; [reflexivity|].
  apply list_elem_of_singleton in Hd as [= -> ->]. reflexivity.
Defined.

(** *** More on the orchestrator *)

Section Retry.

Variable sha1 : string → string.

(** X14: whenever the [try] block throws, at whatever stage, the call
    returns the empty string, the error is the last thing logged, and the
    stored stylesheet is the one from before the call. *)
Theorem generateTheme_fails_soft w o st e st1 :
  generateThemeBody sha1 w o st = Some (Throw e, st1) →
  ∃ st', generateTheme sha1 w o st = Some (EmptyString, st')
         ∧ last (trace st') = Some (Logged e)
         ∧ cssCache st' = cssCache st.
Proof.
  intros Hrun.
  destruct (failed_run_keeps_cssCache sha1 w o st e st1 Hrun)
    as (st' & H1 & H2 & H3 & _).
  eauto.
Qed.

(** X15: a call that fails after the consumer stylesheets were read poisons
    the cache: the next call that reads contents with the same digest - a
    plain retry - returns the stylesheet stored before the failure (the
    empty string after a first call) and calls no collaborator beyond
    discovering and reading the consumer stylesheets. *)
Theorem retry_after_failure_is_served_from_cache
  w1 o1 w2 o2 st sta stx st1 stb c c2 e out :
  readStyles w1 o1 st = Some (Ok c, sta) →
  generateThemeBody sha1 w1 o1 st = Some (Throw e, stx) →
  generateTheme sha1 w1 o1 st = Some (out, st1) →
  readStyles w2 o2 st1 = Some (Ok c2, stb) →
  sha1 c2 = sha1 c →
  out = EmptyString
  ∧ generateTheme sha1 w2 o2 st1 = Some (cssCache st, stb)
  ∧ ∃ evs, trace stb = (trace st1 ++ evs)%list ∧ Forall io_event evs.
Proof.
  intros Hread Hbody Hcall Hread2 Hsame.
  destruct (readStyles_quiet w1 o1 _ _ _ Hread) as (Hh & Hc & _).
  unfold generateTheme in Hcall. rewrite Hbody in Hcall. simpl in Hcall.
  injection Hcall as <- <-.
  rewrite generateThemeBody_unfold, Hread in Hbody.
  destruct (String.eqb (sha1 c) (hashCache sta)); [discriminate|].
  apply regenerate_spec in Hbody as (Hh' & _ & Hc').
  destruct (readStyles_quiet w2 o2 _ _ _ Hread2) as (Hh2 & Hc2 & Hev).
  simpl in Hh2, Hc2.
  split; [reflexivity|]. split; [|exact Hev].
  unfold generateTheme. rewrite generateThemeBody_unfold, Hread2.
  destruct (String.eqb_spec (sha1 c2) (hashCache stb)) as [_|Hne]; [|congruence].
  simpl. congruence.
Qed.

(** X16: with an empty list of style directories the call fails before
    anything is read: the [reduce] over the empty list of glob results
    throws, the call logs the [TypeError] and returns the empty string, and
    neither the stored hash nor the stored stylesheet changes. *)
Theorem generateTheme_no_style_directory w o st :
  stylesDir o = [] →
  generateTheme sha1 w o st
  = Some (EmptyString,
          {| hashCache := hashCache st; cssCache := cssCache st;
             trace := trace st
               ++ [Logged "TypeError: Reduce of empty array with no initial value"] |}).
Proof.
  intros Hdirs.
  unfold generateTheme, generateThemeBody, readStyles, mbind, M_bind, promiseAll.
  rewrite Hdirs. simpl. rewrite app_nil_r. reflexivity.
Qed.

End Retry.

Lemma generateTheme_fails_soft_witness :
  ∃ st', generateTheme toyDigest (brokenWorld sheetA) exampleOptions fresh
         = Some (EmptyString, st')
         ∧ last (trace st') = Some (Logged "ENOENT")
         ∧ cssCache st' = cssCache fresh.
Proof.
  eapply (generateTheme_fails_soft toyDigest (brokenWorld sheetA) exampleOptions
            fresh "ENOENT").
  vm_compute. reflexivity.
Defined.

Lemma retry_after_failure_is_served_from_cache_witness :
  EmptyString = EmptyString
  ∧ generateTheme toyDigest (workingWorld sheetA) exampleOptions
      (processAfter (generateTheme toyDigest (brokenWorld sheetA) exampleOptions fresh))
    = Some (cssCache fresh,
            processAfter
              (readStyles (workingWorld sheetA) exampleOptions
                 (processAfter
                    (generateTheme toyDigest (brokenWorld sheetA) exampleOptions fresh))))
  ∧ ∃ evs,
      trace (processAfter
               (readStyles (workingWorld sheetA) exampleOptions
                  (processAfter
                     (generateTheme toyDigest (brokenWorld sheetA) exampleOptions fresh))))
      = (trace (processAfter
                  (generateTheme toyDigest (brokenWorld sheetA) exampleOptions fresh))
         ++ evs)%list
      ∧ Forall io_event evs.
Proof.
  eapply (retry_after_failure_is_served_from_cache toyDigest
            (brokenWorld sheetA) exampleOptions (workingWorld sheetA) exampleOptions
            fresh _ _ _ _ sheetA sheetA "ENOENT" EmptyString).
  - vm_compute. reflexivity.
  - vm_compute. reflexivity.
  - vm_compute. reflexivity.
  - vm_compute. reflexivity.
  - reflexivity.
Defined.

Lemma generateTheme_no_style_directory_witness :
  generateTheme toyDigest (workingWorld sheetA)
    {| antDir := "node_modules/antd"; antdStylesDir := None; stylesDir := [];
       varFile := None; themeVariables := None; customColorRegexArray := [] |}
    fresh
  = Some (EmptyString,
          {| hashCache := EmptyString; cssCache := EmptyString;
             trace := [Logged "TypeError: Reduce of empty array with no initial value"] |}).
Proof.
  apply (generateTheme_no_style_directory toyDigest). reflexivity.
Defined.

(** *** More on marker assignment *)

Lemma pickColor_source rcv draws :
  ∀ color c rest,
    pickColor rcv color draws = Some (c, rest) →
    (c = color ∨ ∃ d, c = randomColor d)
    ∧ (length rest ≤ length draws)%nat.
Proof.
  induction draws as [|d draws IH]; intros color c rest; simpl;
    destruct (rerolls rcv color); try discriminate.
  - intros [= <- <-]. auto.
  - intros Hpick. apply IH in Hpick as [[->|Hd] Hlen]; split; eauto; lia.
  - intros [= <- <-]. auto.
Qed.

(** What one turn of the first [forEach] does to the two maps. *)
Lemma assignMarker_inv varName m draws m' rest :
  assignMarker varName m draws = Some (m', rest) →
  ∃ color,
    randomColors m' = <[varName := color]> (randomColors m)
    ∧ randomColorsVars m' = <[color := varName]> (randomColorsVars m)
    ∧ (S (length rest) ≤ length draws)%nat
    ∧ (if String.eqb varName "@primary-color" then color = PRIMARY_RANDOM_COLOR
       else rerolls (randomColorsVars m) color = false ∧ ∃ d, color = randomColor d).
Proof.
  unfold assignMarker. destruct draws as [|d draws]; [discriminate|].
  destruct (String.eqb varName "@primary-color").
  - simpl. intros [= <- <-]. exists PRIMARY_RANDOM_COLOR. simpl. auto.
  - destruct (pickColor (randomColorsVars m) (randomColor d) draws)
      as [[color rest']|] eqn:Hpick; [|discriminate].
    simpl. intros [= <- <-]. exists color. simpl.
    split; [reflexivity|]. split; [reflexivity|].
    pose proof (pickColor_accepted _ _ _ _ _ Hpick) as Hacc.
    apply pickColor_source in Hpick as [Hsrc Hlen].
    split; [lia|]. split; [exact Hacc|].
    destruct Hsrc as [->|Hd]; eauto.
Qed.




Lemma assignMarker_sentinelKept varName m draws m' rest :
  sentinelKept m → assignMarker varName m draws = Some (m', rest) → sentinelKept m'.
Proof.
  intros (Hrc & Hrcv & Honly) Hstep. unfold sentinelKept.
  apply assignMarker_inv in Hstep as (color & -> & -> & _ & Hcolor).
  destruct (String.eqb_spec varName "@primary-color") as [->|Hne].
  - subst color. split; [apply lookup_insert_eq|]. split; [apply lookup_insert_eq|].
    intros v [[<- _]|[_ Hv]]%lookup_insert_Some; [reflexivity | exact (Honly v Hv)].
  - destruct Hcolor as [Hacc _].
    assert (Hc : color ≠ PRIMARY_RANDOM_COLOR).
    { intros ->. unfold rerolls in Hacc. rewrite Hrcv in Hacc.
      simpl in Hacc. discriminate. }
    split; [rewrite lookup_insert_ne by exact Hne; exact Hrc|].
    split; [rewrite lookup_insert_ne by exact Hc; exact Hrcv|].
    intros v [[_ Heq]|[_ Hv]]%lookup_insert_Some; [congruence | exact (Honly v Hv)].
Qed.

Lemma assignMarkers_sentinelKept themeVars :
  ∀ m draws m' rest,
    sentinelKept m → assignMarkers themeVars m draws = Some (m', rest) →
    sentinelKept m'.
Proof.
  induction themeVars as [|varName themeVars IH]; intros m draws m' rest Hm; simpl.
  - intros [= <- _]. exact Hm.
  - destruct (assignMarker varName m draws) as [[m1 draws1]|] eqn:Hstep;
      [|discriminate].
    simpl. apply IH. exact (assignMarker_sentinelKept _ _ _ _ _ Hm Hstep).
Qed.

(** X18: when the primary variable is first in the list - as in the default
    list - it has the sentinel [#123456] and no other variable has it: from
    then on a draw equal to the sentinel is re-rolled. *)
Theorem primary_first_keeps_sentinel (others : list string) (draws rest : list N)
  (m : markers) :
  assignMarkers ("@primary-color" :: others) noMarkers draws = Some (m, rest) →
  randomColors m !! "@primary-color" = Some PRIMARY_RANDOM_COLOR
  ∧ ∀ v, randomColors m !! v = Some PRIMARY_RANDOM_COLOR → v = "@primary-color".
Proof.
  cbn [assignMarkers].
  destruct (assignMarker "@primary-color" noMarkers draws) as [[m1 draws1]|] eqn:Hstep;
    [|discriminate].
  simpl. intros Hrun.
  assert (Hm1 : sentinelKept m1).
  { apply assignMarker_inv in Hstep as (color & Hrc & Hrcv & _ & Hcolor).
    simpl in Hcolor. subst color. unfold sentinelKept. rewrite Hrc, Hrcv.
    split; [apply lookup_insert_eq|]. split; [apply lookup_insert_eq|].
    intros v [[<- _]|[_ Hv]]%lookup_insert_Some; [reflexivity|].
    simpl in Hv. rewrite lookup_empty in Hv. discriminate. }
  destruct (assignMarkers_sentinelKept _ _ _ _ _ Hm1 Hrun) as (H1 & _ & H3).
  auto.
Qed.

Lemma primary_first_keeps_sentinel_witness :
  randomColors
    (processMarkers
       (assignMarkers ["@primary-color"; "@link-color"] noMarkers
          [7; 0x123456; 9]%N)) !! "@primary-color" = Some PRIMARY_RANDOM_COLOR
  ∧ ∀ v, randomColors
           (processMarkers
              (assignMarkers ["@primary-color"; "@link-color"] noMarkers
                 [7; 0x123456; 9]%N)) !! v = Some PRIMARY_RANDOM_COLOR →
         v = "@primary-color".
Proof.
  apply (primary_first_keeps_sentinel ["@link-color"] [7; 0x123456; 9]%N []).
  vm_compute. reflexivity.
Defined.

(** *** The discovery scan *)

Lemma take_nonempty n a s : (0 < n)%nat → take n (String a s) ≠ EmptyString.
Proof. destruct n; [lia | discriminate]. Qed.

(** A match of the discovery pattern is never empty and always has its
    second group. *)
Lemma discover_match total s m c :
  match_here re_discover total s = Some (m, c) →
  m ≠ EmptyString ∧ is_Some (capture 2 c).
Proof.
  unfold match_here.
  destruct (rmatch re_discover total s [] (λ s' c', Some (s', c')))
    as [[s' c']|] eqn:H; [|discriminate].
  intros [= <- <-]. unfold re_discover in H. cbn [seq] in H.
  rewrite rmatch_Seq in H. unfold dot in H.
  destruct s as [|a s1]; [discriminate|].
  rewrite rmatch_Char in H. destruct (negb (is_newline a)); [|discriminate].
  assert (Hex : ∃ s2 c2, suffix_of s2 s1
                         ∧ rmatch _ total s2 c2 _ = Some (s', c'))
    by (exists s1, []; split; [apply suffix_of_refl | exact H]).
  clear H. destruct Hex as (s2 & c2 & Hsuf & H).
  do 7 (rewrite rmatch_Seq in H;
        apply (rmatch_answers _ total) in H as (s3 & c3 & Hsuf3 & H);
        pose proof (suffix_of_trans _ _ _ Hsuf3 Hsuf) as Hsuf';
        clear Hsuf Hsuf3 s2 c2; rename s3 into s2, c3 into c2, Hsuf' into Hsuf).
  rewrite rmatch_Seq in H. cbn [rmatch] in H.
  apply (rmatch_answers (star dot) total) in H as (s3 & c3 & Hsuf3 & H).
  destruct s3 as [|b s4]; [discriminate|].
  unfold chr in H. rewrite rmatch_Char in H.
  destruct (is_char ";" b); [|discriminate]. injection H as Hs Hc. subst s' c'.
  split; [|simpl; eauto].
  apply take_nonempty.
  pose proof (suffix_of_length _ _ Hsuf3) as H2.
  pose proof (suffix_of_length _ _ Hsuf) as H3.
  simpl in *. lia.
Qed.

Lemma getMatches_from_discover total s :
  ∀ skip acc, ∃ m, getMatches_from re_discover total s skip acc = Some (Ok m).
Proof.
  induction s as [|a s IH]; intros skip acc.
  - destruct skip as [|skip]; cbn [getMatches_from]; [|eauto].
    destruct (match_here re_discover total EmptyString) as [[m c]|] eqn:Hm; [|eauto].
    destruct (discover_match _ _ _ _ Hm) as [Hne [v ->]].
    destruct m; [congruence | eauto].
  - destruct skip as [|skip]; cbn [getMatches_from]; [|apply IH].
    destruct (match_here re_discover total (String a s)) as [[m c]|] eqn:Hm;
      [|apply IH].
    destruct (discover_match _ _ _ _ Hm) as [Hne [v ->]].
    destruct m; [congruence | apply IH].
Qed.


Lemma discovered_step acc key v :
  discovered acc →
  discovered (if startsWith "rgba" v || startsWith "#" v
              then <["@" +:+ key := v]> acc else acc).
Proof.
  intros Hacc.
  destruct (startsWith "rgba" v || startsWith "#" v) eqn:Hv; [|exact Hacc].
  intros k w [[<- <-]|[_ Hk]]%lookup_insert_Some; [|exact (Hacc _ _ Hk)].
  split; [reflexivity | exact Hv].
Qed.

Lemma getMatches_from_discovered r total s :
  ∀ skip acc res,
    discovered acc →
    getMatches_from r total s skip acc = Some (Ok res) → discovered res.
Proof.
  induction s as [|a s IH]; intros skip acc res Hacc.
  - destruct skip as [|skip]; cbn [getMatches_from]; [|intros [= <-]; exact Hacc].
    destruct (match_here r total EmptyString) as [[m c]|];
      [|intros [= <-]; exact Hacc].
    destruct (capture 2 c) as [v|]; [|discriminate].
    pose proof (discovered_step acc (propertyKey (capture 1 c)) v Hacc) as Hstep.
    destruct m; [discriminate|]. intros [= <-]. exact Hstep.
  - destruct skip as [|skip]; cbn [getMatches_from]; [|apply IH, Hacc].
    destruct (match_here r total (String a s)) as [[m c]|]; [|apply IH, Hacc].
    destruct (capture 2 c) as [v|]; [|discriminate].
    pose proof (discovered_step acc (propertyKey (capture 1 c)) v Hacc) as Hstep.
    destruct m; [discriminate|]. apply IH. exact Hstep.
Qed.

(** X19: the discovery scan of the compiled marker stylesheet always comes
    back with a mapping - its pattern cannot match the empty string, so the
    [exec] loop ends, and the second group is always there - and every
    entry has a key that starts with an at-sign and a value that starts
    with [rgba] or a sharp sign. *)
Theorem getMatches_discovery (css : string) :
  ∃ m, getMatches css re_discover = Some (Ok m)
       ∧ ∀ k v, m !! k = Some v →
                startsWith "@" k = true
                ∧ startsWith "rgba" v || startsWith "#" v = true.
Proof.
  destruct (getMatches_from_discover (String.length css) css 0 ∅) as [m Hm].
  exists m. split; [exact Hm|].
  apply (getMatches_from_discovered re_discover (String.length css) css 0 ∅ m);
    [|exact Hm].
  intros k v Hk. rewrite lookup_empty in Hk. discriminate.
Qed.

Example getMatches_markers :
  getMatches
    (String.concat LF [".primary-color {"; "  color: #123456;"; "}";
                       ".primary-1 {"; "  color: #f0f5ff;"; "}";
                       ".text {"; "  color: red;"; "}"; EmptyString])
    re_discover
  = Some (Ok (<["@primary-color" := "#123456"]> (<["@primary-1" := "#f0f5ff"]> ∅))).
Proof. vm_compute. reflexivity. Qed.

(** *** Deduplication of the compiled consumer stylesheets *)

Section DedupeFacts.

Variable sha1 : string → string.
Variable stripCssComments : string → string.

Lemma dedupeFrom_fresh csss :
  ∀ hashes,
    (∀ t, t ∈ List.filter truthy (dedupeFrom sha1 stripCssComments hashes csss) →
          sha1 t ∉ hashes)
    ∧ NoDup (List.filter truthy (dedupeFrom sha1 stripCssComments hashes csss)).
Proof.
  unfold strippedCss.
  induction csss as [|c csss IH]; intros hashes; cbn [dedupeFrom].
  - split; [intros t Ht; inversion Ht | constructor].
  - destruct (decide (sha1 (stripCssComments (default EmptyString c)) ∈ hashes))
      as [Hin|Hout]; cbn [List.filter truthy]; [exact (IH hashes)|].
    destruct (IH ({[sha1 (stripCssComments (default EmptyString c))]} ∪ hashes))
      as [Hfresh Hnodup].
    assert (Hweaken : ∀ t,
              sha1 t ∉ {[sha1 (stripCssComments (default EmptyString c))]} ∪ hashes →
              sha1 t ∉ hashes)
      by (intros t Ht Hin'; apply Ht, elem_of_union; right; exact Hin').
    destruct (truthy (stripCssComments (default EmptyString c))).
    + split.
      * intros t [->|Ht]%elem_of_cons; [exact Hout|].
        apply Hweaken, Hfresh, Ht.
      * constructor; [|exact Hnodup].
        intros Ht. apply Hfresh in Ht. apply Ht, elem_of_union. left.
        apply elem_of_singleton. reflexivity.
    + split; [|exact Hnodup]. intros t Ht. apply Hweaken, Hfresh, Ht.
Qed.

Lemma dedupeFrom_pieces csss :
  ∀ hashes,
    length (dedupeFrom sha1 stripCssComments hashes csss) = length csss
    ∧ ∀ t, t ∈ dedupeFrom sha1 stripCssComments hashes csss →
           t = EmptyString ∨ ∃ c, c ∈ csss ∧ t = strippedCss stripCssComments c.
Proof.
  unfold strippedCss.
  induction csss as [|c csss IH]; intros hashes; cbn [dedupeFrom].
  - split; [reflexivity | intros t Ht; inversion Ht].
  - destruct (decide (sha1 (stripCssComments (default EmptyString c)) ∈ hashes)).
    + destruct (IH hashes) as [Hlen Hsrc]. split; [simpl; lia|].
      intros t [->|Ht]%elem_of_cons; [auto|].
      destruct (Hsrc t Ht) as [->|(c' & Hc' & ->)]; [auto|].
      right. exists c'. split; [right; exact Hc' | reflexivity].
    + destruct (IH ({[sha1 (stripCssComments (default EmptyString c))]} ∪ hashes))
        as [Hlen Hsrc].
      split; [simpl; lia|].
      intros t [->|Ht]%elem_of_cons.
      * right. exists c. split; [left | reflexivity].
      * destruct (Hsrc t Ht) as [->|(c' & Hc' & ->)]; [auto|].
        right. exists c'. split; [right; exact Hc' | reflexivity].
Qed.

(** X20: the list joined by [compileAllLessFilesToCss] has one piece for
    each compiled file, each piece is empty or the stripped stylesheet of
    one of the files, and no stylesheet text that is not empty occurs in it
    twice. *)
Theorem dedupe_no_repeats (csss : list (option string)) :
  dedupe sha1 stripCssComments csss
  = join LF (dedupeFrom sha1 stripCssComments ∅ csss)
  ∧ length (dedupeFrom sha1 stripCssComments ∅ csss) = length csss
  ∧ (∀ t, t ∈ dedupeFrom sha1 stripCssComments ∅ csss →
          t = EmptyString ∨ ∃ c, c ∈ csss ∧ t = strippedCss stripCssComments c)
  ∧ NoDup (List.filter truthy (dedupeFrom sha1 stripCssComments ∅ csss)).
Proof.
  split; [reflexivity|].
  destruct (dedupeFrom_pieces csss ∅) as [Hlen Hsrc].
  destruct (dedupeFrom_fresh csss ∅) as [_ Hnodup]. auto.
Qed.

Lemma dedupeFrom_keeps csss :
  (∀ a b, a ∈ csss → b ∈ csss →
          sha1 (strippedCss stripCssComments a) = sha1 (strippedCss stripCssComments b) →
          strippedCss stripCssComments a = strippedCss stripCssComments b) →
  ∀ hashes c,
    c ∈ csss → sha1 (strippedCss stripCssComments c) ∉ hashes →
    strippedCss stripCssComments c ∈ dedupeFrom sha1 stripCssComments hashes csss.
Proof.
  unfold strippedCss.
  induction csss as [|c0 csss IH]; intros Hinj hashes c Hc Hfresh;
    [inversion Hc|].
  cbn [dedupeFrom].
  assert (Hinj' : ∀ a b, a ∈ csss → b ∈ csss →
            sha1 (strippedCss stripCssComments a) = sha1 (strippedCss stripCssComments b) →
            strippedCss stripCssComments a = strippedCss stripCssComments b).
  { intros a b Ha Hb. apply Hinj; right; assumption. }
  destruct (decide (sha1 (stripCssComments (default EmptyString c0)) ∈ hashes))
    as [Hin|Hout].
  - apply elem_of_cons in Hc as [->|Hc]; [tauto|].
    right. exact (IH Hinj' hashes c Hc Hfresh).
  - apply elem_of_cons in Hc as [->|Hc]; [left|].
    destruct (decide (sha1 (stripCssComments (default EmptyString c))
                      = sha1 (stripCssComments (default EmptyString c0))))
      as [Heq|Hne].
    + rewrite (Hinj c c0); [left | right; exact Hc | left | exact Heq].
    + right. apply (IH Hinj' _ c Hc).
      intros [Hin|Hin]%elem_of_union; [|exact (Hfresh Hin)].
      apply elem_of_singleton in Hin. exact (Hne Hin).
Qed.

(** X21: when SHA-1 does not collide on the stripped stylesheets of the
    compiled files, nothing but repetitions is dropped: the stylesheet of
    every file is among the pieces. *)
Theorem dedupe_keeps_every_stylesheet (csss : list (option string)) :
  (∀ a b, a ∈ csss → b ∈ csss →
          sha1 (strippedCss stripCssComments a) = sha1 (strippedCss stripCssComments b) →
          strippedCss stripCssComments a = strippedCss stripCssComments b) →
  ∀ c, c ∈ csss →
       strippedCss stripCssComments c ∈ dedupeFrom sha1 stripCssComments ∅ csss.
Proof.
  intros Hinj c Hc. apply (dedupeFrom_keeps csss Hinj ∅ c Hc).
  apply not_elem_of_empty.
Qed.

End DedupeFacts.

Lemma dedupe_keeps_every_stylesheet_witness :
  strippedCss (λ css, css) (Some ".b {}")
  ∈ dedupeFrom toyDigest (λ css, css) ∅ [Some ".a {}"; None; Some ".a {}"; Some ".b {}"].
Proof.
  refine (dedupe_keeps_every_stylesheet toyDigest (λ css, css)
            [Some ".a {}"; None; Some ".a {}"; Some ".b {}"] _ (Some ".b {}") _).
  - intros a b _ _. unfold toyDigest. intros H. injection H as H. exact H.
  - do 3 right. left.
Defined.

Example dedupe_example :
  dedupe toyDigest (λ css, css) [Some ".a {}"; None; Some ".a {}"; Some ".b {}"]
  = String.concat LF [".a {}"; EmptyString; EmptyString; ".b {}"].
Proof. vm_compute. reflexivity. Qed.

(** *** The import bundler *)

Lemma split_char_nonempty sep s : split_char sep s ≠ [].
Proof.
  destruct s as [|a s]; simpl; [discriminate|].
  destruct (Ascii.eqb a sep); [discriminate|].
  destruct (split_char sep s); discriminate.
Qed.

Lemma join_cons sep p (l : list string) :
  l ≠ [] → join sep (p :: l) = p +:+ sep +:+ join sep l.
Proof. destruct l; [congruence | reflexivity]. Qed.

(** Splitting at line feeds and joining with line feeds gives the text back. *)
Lemma join_split_lines s : join LF (split_char lf s) = s.
Proof.
  induction s as [|a s IH]; [reflexivity|].
  cbn [split_char]. pose proof (split_char_nonempty lf s) as Hne.
  destruct (Ascii.eqb_spec a lf) as [->|Hna].
  - rewrite join_cons by exact Hne. rewrite IH. reflexivity.
  - destruct (split_char lf s) as [|p ps] eqn:Hs; [congruence|].
    destruct ps as [|q ps].
    + cbn [join] in *. rewrite IH. reflexivity.
    + rewrite join_cons by discriminate. rewrite join_cons in IH by discriminate.
      rewrite append_cons, IH. reflexivity.
Qed.

Lemma sequenceM_lines (lines : list string) :
  Bundler.sequenceM ((λ line, Some (Ok line)) <$> lines) = Some (Ok lines).
Proof.
  induction lines as [|l lines IH]; [reflexivity|].
  cbn [fmap list_fmap]. cbn [fmap list_fmap] in IH.
  cbn [Bundler.sequenceM]. rewrite IH. reflexivity.
Qed.


Lemma import_needs_quote total s :
  all_chars (λ a, negb (is_char dquote a || is_char "'" a)) s = true →
  search Bundler.re_import total s = None.
Proof.
  induction s as [|a s IH]; intros Hs.
  - reflexivity.
  - cbn [search].
    assert (Hhere : match_here Bundler.re_import total (String a s) = None).
    { unfold match_here, Bundler.re_import. cbn [seq].
      destruct (rmatch _ total (String a s) [] (λ s' c', Some (s', c')))
        as [x|] eqn:H; [|reflexivity].
      rewrite rmatch_Seq in H.
      apply (rmatch_answers _ total) in H as (s1 & c1 & Hsuf & H).
      rewrite rmatch_Seq in H. destruct s1 as [|b s1]; [discriminate|].
      rewrite rmatch_Char in H.
      apply (all_chars_suffix _ _ _ Hsuf) in Hs. cbn [all_chars] in Hs.
      apply andb_true_iff in Hs as [Hb _]. apply negb_true_iff in Hb.
      rewrite Hb in H. discriminate. }
    rewrite Hhere. apply IH.
    cbn [all_chars] in Hs. apply andb_true_iff in Hs as [_ Hs]. exact Hs.
Qed.


Lemma sequenceM_pending (before after : list string) :
  Bundler.sequenceM
    ((((λ line, Some (Ok line)) <$> before)
      ++ None :: ((λ line, Some (Ok line)) <$> after))%list)
  = None.
Proof.
  induction before as [|l before IH].
  - cbn [fmap list_fmap app Bundler.sequenceM].
    pose proof (sequenceM_lines after) as H. cbn [fmap] in H. rewrite H.
    reflexivity.
  - cbn [fmap list_fmap app Bundler.sequenceM] in *. rewrite IH. reflexivity.
Qed.

Section BundlerFacts.

Variable readFile : string → result string.
Variable dirname : string → string.
Variable path_join : string → string → string.

Lemma plain_lines_kept directory nodeModulesPath fuel (lines : list string) :
  Forall (λ line, startsWith "@import" line = false) lines →
  (λ line,
     if startsWith "@import" line then
       match Bundler.importTarget path_join directory nodeModulesPath line with
       | None => Some (Throw "TypeError: Cannot read properties of null")
       | Some newPath =>
           Bundler.combineLess readFile dirname path_join fuel newPath nodeModulesPath
       end
     else Some (Ok line)) <$> lines
  = (λ line, Some (Ok line)) <$> lines.
Proof.
  induction 1 as [|line lines Hline _ IH]; [reflexivity|].
  cbn [fmap list_fmap] in *. rewrite Hline, IH. reflexivity.
Qed.

Lemma plain_lines_not_rejected directory nodeModulesPath (lines : list string) :
  Forall (λ line, startsWith "@import" line = false) lines →
  existsb (Bundler.rejectedAtOnce path_join directory nodeModulesPath) lines = false.
Proof.
  induction 1 as [|line lines Hline _ IH]; [reflexivity|].
  cbn [existsb]. unfold Bundler.rejectedAtOnce at 1. rewrite Hline, IH. reflexivity.
Qed.

(** X22: a file in which no line starts with [@import] comes back from
    [combineLess] exactly as it was read, line ends included. *)
Theorem combineLess_without_imports (filePath nodeModulesPath fileContent : string)
  (fuel : nat) :
  readFile filePath = Ok fileContent →
  importFree fileContent →
  Bundler.combineLess readFile dirname path_join (S fuel) filePath nodeModulesPath
  = Some (Ok fileContent).
Proof.
  intros Hread Hfree. cbn [Bundler.combineLess]. rewrite Hread.
  cbv zeta. unfold importFree in Hfree.
  rewrite plain_lines_not_rejected by exact Hfree.
  rewrite plain_lines_kept by exact Hfree.
  rewrite sequenceM_lines, join_split_lines. reflexivity.
Qed.

(** X23: nothing guards against a cycle of imports: when a line of a file
    imports the file itself and no other line is an import, [combineLess]
    never comes back, whatever the depth allowed. *)
Theorem combineLess_self_import (filePath nodeModulesPath fileContent line : string)
  (before after : list string) :
  readFile filePath = Ok fileContent →
  split_char lf fileContent = (before ++ line :: after)%list →
  Forall (λ l, startsWith "@import" l = false) before →
  Forall (λ l, startsWith "@import" l = false) after →
  startsWith "@import" line = true →
  Bundler.importTarget path_join (dirname filePath) nodeModulesPath line
  = Some filePath →
  ∀ fuel,
    Bundler.combineLess readFile dirname path_join fuel filePath nodeModulesPath
    = None.
Proof.
  intros Hread Hsplit Hbefore Hafter Himport Htarget fuel.
  induction fuel as [|fuel IH]; [reflexivity|].
  cbn [Bundler.combineLess]. rewrite Hread, Hsplit. cbv zeta.
  rewrite existsb_app. cbn [existsb].
  rewrite !plain_lines_not_rejected by assumption.
  unfold Bundler.rejectedAtOnce at 1. rewrite Himport, Htarget.
  cbn [andb orb].
  rewrite fmap_app. cbn [fmap list_fmap].
  rewrite Himport, Htarget, IH.
  pose proof (plain_lines_kept (dirname filePath) nodeModulesPath fuel _ Hbefore) as Hb.
  pose proof (plain_lines_kept (dirname filePath) nodeModulesPath fuel _ Hafter) as Ha.
  cbn [fmap] in Hb, Ha. rewrite Hb, Ha.
  pose proof (sequenceM_pending before after) as Hp. cbn [fmap] in Hp.
  rewrite Hp. reflexivity.
Qed.

(** X24: an [@import] line is not skipped when it has no quoted path - as
    in [@import url(theme.css);] - but throws: when a line of a file starts
    with [@import] and holds no quote character, [combineLess] fails with
    a [TypeError], whatever the other lines are. *)
Theorem combineLess_unquoted_import (filePath nodeModulesPath fileContent line : string)
  (fuel : nat) :
  readFile filePath = Ok fileContent →
  line ∈ split_char lf fileContent →
  startsWith "@import" line = true →
  all_chars (λ a, negb (is_char dquote a || is_char "'" a)) line = true →
  Bundler.combineLess readFile dirname path_join (S fuel) filePath nodeModulesPath
  = Some (Throw "TypeError: Cannot read properties of null").
Proof.
  intros Hread Hline Himport Hquote.
  cbn [Bundler.combineLess]. rewrite Hread. cbv zeta.
  assert (Hrej : existsb (Bundler.rejectedAtOnce path_join (dirname filePath)
                            nodeModulesPath) (split_char lf fileContent) = true).
  { apply existsb_exists. exists line. split; [apply list_elem_of_In; exact Hline|].
    unfold Bundler.rejectedAtOnce, Bundler.importTarget, exec.
    rewrite Himport, (import_needs_quote _ _ Hquote). reflexivity. }
  rewrite Hrej. reflexivity.
Qed.

End BundlerFacts.

Lemma combineLess_without_imports_witness :
  Bundler.combineLess (λ _, Ok (String.concat LF ["@a-x: #111;"; ".b { color: @a-x; }"]))
    (λ p, p) (λ a b, a +:+ "/" +:+ b) 1 "theme.less" "node_modules"
  = Some (Ok (String.concat LF ["@a-x: #111;"; ".b { color: @a-x; }"])).
Proof.
  apply (combineLess_without_imports _ (λ p, p) (λ a b, a +:+ "/" +:+ b)
           "theme.less" "node_modules").
  - reflexivity.
  - repeat constructor.
Defined.

Lemma combineLess_self_import_witness :
  Bundler.combineLess
    (λ _, Ok (String.concat LF ["@a-x: #111;"; "@import 'theme';"; ".b { color: red; }"]))
    (λ _, "src") (λ a b, a +:+ "/" +:+ b) 1000 "src/theme.less" "node_modules"
  = None.
Proof.
  refine (combineLess_self_import
           (λ _, Ok (String.concat LF ["@a-x: #111;"; "@import 'theme';"; ".b { color: red; }"]))
           (λ _, "src") (λ a b, a +:+ "/" +:+ b) "src/theme.less" "node_modules"
           (String.concat LF ["@a-x: #111;"; "@import 'theme';"; ".b { color: red; }"])
           "@import 'theme';" ["@a-x: #111;"] [".b { color: red; }"]
           _ _ _ _ _ _ 1000%nat).
  - reflexivity.
  - vm_compute. reflexivity.
  - repeat constructor.
  - repeat constructor.
  - reflexivity.
  - vm_compute. reflexivity.
Defined.

Lemma combineLess_unquoted_import_witness :
  Bundler.combineLess
    (λ _, Ok (String.concat LF [".b { color: red; }"; "@import url(theme.css);"]))
    (λ _, "src") (λ a b, a +:+ "/" +:+ b) 1 "src/theme.less" "node_modules"
  = Some (Throw "TypeError: Cannot read properties of null").
Proof.
  apply (combineLess_unquoted_import
           (λ _, Ok (String.concat LF [".b { color: red; }"; "@import url(theme.css);"]))
           (λ _, "src") (λ a b, a +:+ "/" +:+ b) "src/theme.less" "node_modules"
           (String.concat LF [".b { color: red; }"; "@import url(theme.css);"])
           "@import url(theme.css);").
  - reflexivity.
  - vm_compute. right. left.
  - reflexivity.
  - reflexivity.
Defined.

(** *** The [fade(...)] sentinels *)

(** A literal matches exactly when the input starts with it. *)
Lemma rmatch_lit w total : ∀ s c k,
  rmatch (lit w) total s c k
  = if startsWith w s then k (drop (String.length w) s) c else None.
Proof.
  induction w as [|a w IH]; intros s c k; [reflexivity|].
  destruct w as [|b w].
  - cbn [lit]. unfold chr. destruct s as [|x s]; [reflexivity|].
    rewrite rmatch_Char. cbn [startsWith String.length drop].
    unfold is_char at 2. rewrite andb_true_r.
    destruct (is_char a x) eqn:E; unfold is_char in E; rewrite E; reflexivity.
  - change (lit (String a (String b w))) with (Seq (chr a) (lit (String b w))).
    rewrite rmatch_Seq. unfold chr. destruct s as [|x s]; [reflexivity|].
    rewrite rmatch_Char, IH.
    change (startsWith (String a (String b w)) (String x s))
      with (is_char a x && startsWith (String b w) s).
    destruct (is_char a x); reflexivity.
Qed.

Lemma startsWith_take w s n :
  startsWith w s = true → (String.length w ≤ n)%nat → startsWith w (take n s) = true.
Proof.
  revert s n. induction w as [|a w IH]; intros s n Hs Hn; [reflexivity|].
  destruct s as [|x s]; [discriminate|]. destruct n as [|n]; [simpl in Hn; lia|].
  cbn [startsWith take] in *. apply andb_true_iff in Hs as [Hx Hs].
  rewrite Hx. apply IH; [exact Hs | simpl in Hn; lia].
Qed.

Lemma suffix_of_drop_length n s s1 :
  suffix_of s1 (drop n s) → (n ≤ String.length s)%nat →
  (n ≤ String.length s - String.length s1)%nat.
Proof.
  revert s. induction n as [|n IH]; intros s Hsuf Hn; [lia|].
  destruct s as [|a s]; [simpl in Hn; lia|].
  cbn [drop] in Hsuf. simpl in Hn. specialize (IH s Hsuf ltac:(lia)).
  apply suffix_of_length in Hsuf.
  assert (String.length (drop n s) ≤ String.length s)%nat.
  { clear. revert s. induction n as [|n IH]; intros [|a s]; simpl; try lia.
    specialize (IH s). lia. }
  simpl. lia.
Qed.

Lemma startsWith_length w s : startsWith w s = true → (String.length w ≤ String.length s)%nat.
Proof.
  revert s. induction w as [|a w IH]; intros [|x s]; simpl; try lia; try discriminate.
  intros [_ H]%andb_true_iff. specialize (IH s H). lia.
Qed.

Lemma fade_match total s m c :
  match_here re_fade total s = Some (m, c) → startsWith "fade(" m = true.
Proof.
  unfold match_here, re_fade. cbn [seq].
  destruct (rmatch _ total s [] (λ s' c', Some (s', c'))) as [[s' c']|] eqn:H;
    [|discriminate].
  intros [= <- <-]. rewrite rmatch_Seq, rmatch_lit in H.
  destruct (startsWith "fade(" s) eqn:Hs; [|discriminate].
  apply (rmatch_answers _ total) in H as (s1 & c1 & Hsuf & H).
  injection H as -> ->.
  apply startsWith_take; [exact Hs|].
  apply suffix_of_drop_length; [exact Hsuf|].
  exact (startsWith_length _ _ Hs).
Qed.

Lemma match_all_from_here r total s :
  ∀ skip m, m ∈ match_all_from r total s skip →
            ∃ s1 c, match_here r total s1 = Some (m, c).
Proof.
  induction s as [|a s IH]; intros skip m.
  - destruct skip as [|skip]; cbn [match_all_from]; [|intros H; inversion H].
    destruct (match_here r total EmptyString) as [[m0 c0]|] eqn:Hm;
      [|intros H; inversion H].
    intros ->%list_elem_of_singleton. eauto.
  - destruct skip as [|skip]; cbn [match_all_from]; [|apply IH].
    destruct (match_here r total (String a s)) as [[m0 c0]|] eqn:Hm; [|apply IH].
    intros [->|Hin]%elem_of_cons; [eauto | exact (IH _ _ Hin)].
Qed.


Lemma fillFadeMap_entries extra fades :
  ∀ fadeMap draws fadeMap' rest all_fades all_draws,
    fillFadeMap fades fadeMap draws = Some (fadeMap', rest) →
    (∀ f, f ∈ fades → f ∈ all_fades) →
    (∀ d, d ∈ draws → d ∈ all_draws) →
    fadeEntries all_fades all_draws extra fadeMap →
    fadeEntries all_fades all_draws extra fadeMap'.
Proof.
  induction fades as [|fade fades IH];
    intros fadeMap draws fadeMap' rest all_fades all_draws Hrun Hf Hd Hinv;
    cbn [fillFadeMap] in Hrun.
  - injection Hrun as <- _. exact Hinv.
  - destruct (fadeNeedsSentinel fade) eqn:Hneeds.
    + destruct draws as [|d draws]; [discriminate|].
      apply (IH _ _ _ _ all_fades all_draws) in Hrun; [exact Hrun| | |].
      * intros f Hin. apply Hf. right. exact Hin.
      * intros d' Hin. apply Hd. right. exact Hin.
      * intros f c [[<- <-]|[_ Hk]]%lookup_insert_Some; [|exact (Hinv _ _ Hk)].
        split; [apply Hf; left|]. split; [exact Hneeds|].
        split; [exists d; split; [apply Hd; left | reflexivity]|].
        apply randomColor_valid.
    + apply (IH _ _ _ _ all_fades all_draws) in Hrun; [exact Hrun| |exact Hd|exact Hinv].
      intros f Hin. apply Hf. right. exact Hin.
Qed.

(** X25: every key of the sentinel map is a [fade(...)] call found in the
    bundled stylesheet - it starts with [fade(] - that does not start with
    [fade(@black], [fade(@white], [fade(#] or [fade(@color]; every value is
    the color of one of the draws, and a color for the classifier. *)
Theorem buildFadeMap_entries (antdLess : string) (draws rest : list N)
  (fadeMap : gmap string string) (extra : list regex) (fade color : string) :
  buildFadeMap antdLess draws = Some (fadeMap, rest) →
  fadeMap !! fade = Some color →
  fade ∈ match_all re_fade antdLess
  ∧ startsWith "fade(" fade = true
  ∧ fadeNeedsSentinel fade = true
  ∧ (∃ d, d ∈ draws ∧ color = randomColor d)
  ∧ isValidColor (Some color) extra = true.
Proof.
  unfold buildFadeMap. intros Hrun Hk.
  apply (fillFadeMap_entries extra _ _ _ _ _ (match_all re_fade antdLess) draws)
    in Hrun; [|auto|auto|].
  - destruct (Hrun _ _ Hk) as (Hin & Hneeds & Hd & Hvalid).
    split; [exact Hin|]. split; [|auto].
    apply match_all_from_here in Hin as (s1 & c & Hm).
    exact (fade_match _ _ _ _ Hm).
  - intros f c Hf. rewrite lookup_empty in Hf. discriminate.
Qed.

Lemma buildFadeMap_entries_witness :
  "fade(@primary-color, 20%)"
    ∈ match_all re_fade
        (String.concat LF ["a: fade(@primary-color, 20%);"; "b: fade(@black, 10%);"])
  ∧ startsWith "fade(" "fade(@primary-color, 20%)" = true
  ∧ fadeNeedsSentinel "fade(@primary-color, 20%)" = true
  ∧ (∃ d, d ∈ [5; 6]%N ∧ "#000005" = randomColor d)
  ∧ isValidColor (Some "#000005") [] = true.
Proof.
  apply (buildFadeMap_entries
           (String.concat LF ["a: fade(@primary-color, 20%);"; "b: fade(@black, 10%);"])
           [5; 6]%N [6%N]
           (<["fade(@primary-color, 20%)" := "#000005"]> ∅)).
  - vm_compute. reflexivity.
  - vm_compute. reflexivity.
Defined.

(** *** The shade rules *)

Lemma search_suffix r total s1 s x :
  suffix_of s1 s → match_here r total s1 = Some x →
  ∃ y, search r total s = Some y.
Proof.
  intros [pre ->] Hhere. induction pre as [|a pre IH].
  - change (EmptyString +:+ s1) with s1.
    destruct s1; cbn [search]; rewrite Hhere; eauto.
  - rewrite append_cons. cbn [search].
    destruct (match_here r total (String a (pre +:+ s1))); eauto.
Qed.

Lemma search_here r total s x :
  search r total s = Some x → ∃ s1, match_here r total s1 = Some x.
Proof.
  induction s as [|a s IH]; cbn [search].
  - destruct (match_here r total EmptyString) eqn:H; [|discriminate].
    intros [= <-]. eauto.
  - destruct (match_here r total (String a s)) eqn:H; [|exact IH].
    intros [= <-]. eauto.
Qed.

Lemma shade_captures total s m c :
  match_here re_shade total s = Some (m, c) →
  ∃ className number, capture 1 c = Some className ∧ capture 2 c = Some number.
Proof.
  unfold match_here, re_shade. cbn [seq].
  destruct (rmatch _ total s [] (λ s' c', Some (s', c'))) as [[s' c']|] eqn:H;
    [|discriminate].
  intros [= _ <-]. rewrite rmatch_Seq, rmatch_Group in H.
  apply (rmatch_answers _ total) in H as (s1 & c1 & _ & H). cbv beta in H.
  rewrite rmatch_Seq in H. unfold chr in H.
  destruct s1 as [|a s1]; [discriminate|]. rewrite rmatch_Char in H.
  destruct (is_char "-" a); [|discriminate].
  cbn [rmatch] in H. destruct s1 as [|b s1]; [discriminate|].
  destruct (is_digit b); [|discriminate].
  injection H as _ <-. cbn [capture Nat.eqb]. eauto.
Qed.

Lemma shade_key_here total key :
  key ∈ shadeKeys → ∃ x, match_here re_shade total ("-" +:+ decimal key) = Some x.
Proof.
  unfold shadeKeys. intros Hkey.
  repeat (apply elem_of_cons in Hkey as [->|Hkey]; [vm_compute; eauto|]).
  inversion Hkey.
Qed.

Lemma shadeName_suffix varName key :
  suffix_of ("-" +:+ decimal key) (shadeName varName key).
Proof.
  unfold shadeName. destruct (String.eqb varName "@primary-color").
  - exists "@primary". reflexivity.
  - exists varName. reflexivity.
Qed.

Lemma getShade_shadeName varName key :
  key ∈ shadeKeys → ∃ shade, getShade (shadeName varName key) = Some shade.
Proof.
  intros Hkey. unfold getShade, exec.
  destruct (shade_key_here (String.length (shadeName varName key)) key Hkey)
    as [x Hx].
  destruct (search_suffix _ _ _ _ _ (shadeName_suffix varName key) Hx)
    as [[m c] Hy].
  rewrite Hy.
  apply search_here in Hy as [s1 Hy].
  apply shade_captures in Hy as (className & number & -> & ->). eauto.
Qed.

Lemma shadeRules_ok varName keys :
  (∀ key, key ∈ keys → key ∈ shadeKeys) →
  ∀ css, ∃ css', foldM (shadeRule varName) keys css = Ok css'.
Proof.
  induction keys as [|key keys IH]; intros Hkeys css; cbn [foldM]; [eauto|].
  unfold shadeRule at 1.
  destruct (getShade_shadeName varName key) as [shade ->]; [apply Hkeys; left|].
  apply IH. intros k Hk. apply Hkeys. right. exact Hk.
Qed.

(** X26: the shade stage never throws: whatever the theme variables are
    named, [getShade] finds its [-digit] at the end of every name the stage
    builds, so the nine rules of every variable and its line of the
    variables content are produced. *)
Theorem shade_stage_never_throws (randomColors : gmap string string)
  (themeVars : list string) (css varsContent : string) :
  ∃ out, foldM (addShades randomColors) themeVars (css, varsContent) = Ok out.
Proof.
  revert css varsContent.
  induction themeVars as [|varName themeVars IH]; intros css varsContent;
    cbn [foldM]; [eauto|].
  unfold addShades at 1. cbn [fst snd].
  destruct (shadeRules_ok varName shadeKeys (λ _ H, H) css) as [css' ->].
  apply IH.
Qed.

(** *** The combined variables *)



